(** * gif-view: playback engine (sdlapp.c) and LZW decoding

    A shallow embedding of the frame-playback logic of [sdlapp.c] (two
    revisions of the file are kept, [Rev0] and [Rev1]) together with the
    properties the design document states about it.

    Conventions of the embedding.
    - [double] values are the rationals they denote, plus an explicit [NaN]
      (the value C's [fmod] yields for a zero modulus).  Rounding of [+] and
      [-] is not modelled; [fmod] is exact in IEEE arithmetic.
    - A [GraphicList] is a pointer to a list node.  Nodes live in an arena
      ([Heap]); a pointer is the index of its node.  Dereferencing a pointer
      outside the arena is undefined behaviour in C and yields [None] here.
    - Loops take a fuel argument; running out of fuel yields [None]. *)

From Stdlib Require Import ZArith QArith Qround List Bool Arith Lia Lqa.
From Stdlib Require Import Strings.Byte.
Import ListNotations.

Open Scope nat_scope.

(** ** Option as an error monad *)

Notation "x <- c ;; k" :=
  (match c with Some x => k | None => None end)
  (at level 61, c at next level, right associativity).

(** ** [double] arithmetic used by the timer *)

Inductive time : Type :=
| Num (q : Q)
| NaN.

Definition time_add (t : time) (q : Q) : time :=
  match t with
  | Num a => Num (a + q)
  | NaN => NaN
  end.

Definition time_sub (t : time) (q : Q) : time :=
  match t with
  | Num a => Num (a - q)
  | NaN => NaN
  end.

(** Integer part, rounding toward zero. *)
Definition Qtrunc (q : Q) : Z := Z.quot (Qnum q) (Zpos (Qden q)).

(** C's [fmod(x, y)]: [x - n*y] with [n] the quotient [x/y] truncated toward
    zero; NaN when [y] is zero or [x] is NaN. *)
Definition fmod (x : time) (y : Q) : time :=
  match x with
  | NaN => NaN
  | Num a =>
      if Qeq_bool y 0 then NaN
      else Num (a - y * inject_Z (Qtrunc (a / y)))
  end.

(** [t >= q]; every comparison with NaN is false. *)
Definition time_geb (t : time) (q : Q) : bool :=
  match t with
  | Num a => Qle_bool q a
  | NaN => false
  end.

(** ** The list of frames *)

(** struct Graphic: a frame ready for display.  [texture] stands for the
    SDL texture handle that holds the pixels. *)
Record Graphic : Type := mkGraphic {
  texture : nat;
  width : Z;
  height : Z;
  delay : Q
}.

Definition GraphicList : Type := nat.

Record GraphicListNode : Type := mkNode {
  data : Graphic;
  next : GraphicList
}.

Definition Heap : Type := list GraphicListNode.

Definition deref (h : Heap) (p : GraphicList) : option GraphicListNode :=
  nth_error h p.

(** Successor of node [i] in a cycle of [n] nodes laid out in order. *)
Definition successor (n i : nat) : GraphicList :=
  if S i =? n then 0 else S i.

Fixpoint link (n i : nat) (gs : list Graphic) : Heap :=
  match gs with
  | [] => []
  | g :: gs' => mkNode g (successor n i) :: link n (S i) gs'
  end.

(** Modelled from the spec: [graphiclist_new] is not part of the sources at
    hand.  "Blocks are linked in encounter order with the last block's
    successor set to the first, forming the cyclic sequence."  The result is
    the arena; the head of the list is node 0. *)
Definition graphiclist_new (gif : list Graphic) : Heap :=
  link (length gif) 0 gif.

(** A heap is a cycle when it is non-empty and every node points to the node
    after it, the last one to node 0. *)
Fixpoint linked_from (n i : nat) (h : Heap) : bool :=
  match h with
  | [] => true
  | node :: h' => (next node =? successor n i) && linked_from n (S i) h'
  end.

Definition cyclic (h : Heap) : bool :=
  negb (length h =? 0) && linked_from (length h) 0 h.

Definition delays_nonneg (h : Heap) : Prop :=
  forall node, In node h -> (0 <= delay (data node))%Q.

(** ** sdlapp.c, later revision: cycle timer with playback speed *)

Module Rev1.

(** struct Viewer, the fields the playback logic reads. *)
Record Viewer : Type := mkViewer {
  running : bool;
  paused : bool;
  looping : bool;
  playback_speed : Q
}.

(** struct App, without the SDL window, renderer and text handles.
    [heap] is the memory holding the nodes [images] points into. *)
Record App : Type := mkApp {
  heap : Heap;
  view : Viewer;
  images : GraphicList;
  current_frame : GraphicList;
  timer : time;
  full_time : Q;
  state_text_visible : bool
}.

Definition set_timer (app : App) (t : time) : App :=
  mkApp (heap app) (view app) (images app) (current_frame app) t
        (full_time app) (state_text_visible app).

Definition set_current_frame (app : App) (p : GraphicList) : App :=
  mkApp (heap app) (view app) (images app) p (timer app)
        (full_time app) (state_text_visible app).

(** Modelled from the spec: [viewer_should_timer_increment] is declared in
    a file that is not at hand.  "tick(): if paused, no-op"; the earlier
    revision tests [app->paused] at the same place. *)
Definition viewer_should_timer_increment (v : Viewer) : bool :=
  negb (paused v).

(** [app->current_frame->next == app->images] *)
Definition _is_app_on_final_frame (app : App) : option bool :=
  node <- deref (heap app) (current_frame app) ;;
  Some (next node =? images app).

(** [app->timer -= image->delay; app->current_frame = app->current_frame->next;] *)
Definition app_next_frame (app : App) : option App :=
  node <- deref (heap app) (current_frame app) ;;
  Some (set_current_frame
          (set_timer app (time_sub (timer app) (delay (data node))))
          (next node)).

(** The [for] loop of [app_timer_increment]; [advanced] is the local flag. *)
Fixpoint timer_loop (fuel : nat) (app : App) (advanced : bool)
  : option (bool * App) :=
  match fuel with
  | O => None
  | S fuel' =>
      image <- deref (heap app) (current_frame app) ;;
      if time_geb (timer app) (delay (data image)) then
        final <- _is_app_on_final_frame app ;;
        if final && negb (looping (view app)) then Some (advanced, app)
        else
          app' <- app_next_frame app ;;
          timer_loop fuel' app' true
      else Some (advanced, app)
  end.

Definition app_timer_increment (fuel : nat) (app : App)
  : option (bool * App) :=
  if negb (viewer_should_timer_increment (view app)) then Some (false, app)
  else
    timer_loop fuel
      (set_timer app
         (fmod (time_add (timer app) (playback_speed (view app)))
               (full_time app)))
      false.

(** The [while] loop of [app_previous_frame]. *)
Fixpoint previous_loop (fuel : nat) (current : GraphicList) (app : App)
  : option App :=
  match fuel with
  | O => None
  | S fuel' =>
      node <- deref (heap app) (current_frame app) ;;
      if negb (next node =? current) then
        app' <- app_next_frame app ;;
        previous_loop fuel' current app'
      else Some app
  end.

Definition app_previous_frame (fuel : nat) (app : App) : option App :=
  app' <- previous_loop fuel (current_frame app) app ;;
  Some (set_timer app' (Num 0)).

(** The [for] loop of [app_new] that accumulates [full_time]. *)
Fixpoint full_time_loop (fuel : nat) (h : Heap) (images curr : GraphicList)
  (acc : Q) : option Q :=
  match fuel with
  | O => None
  | S fuel' =>
      node <- deref h curr ;;
      if negb (next node =? images) then
        full_time_loop fuel' h images (next node)
          (acc + delay (data node))%Q
      else Some acc
  end.

(** [app_new], the playback part: the list is built, the cursor is put on
    its head, the timer is cleared, the cycle time is summed, and playback
    starts unpaused, looping, at speed 1. *)
Definition app_new (fuel : nat) (gif : list Graphic) : option App :=
  let h := graphiclist_new gif in
  let images := 0 in
  ft <- full_time_loop fuel h images images 0%Q ;;
  Some (mkApp h (mkViewer true false true 1%Q) images images (Num 0) ft
              false).

(** [n] calls of [app_next_frame]. *)
Fixpoint next_frames (n : nat) (app : App) : option App :=
  match n with
  | O => Some app
  | S n' => app' <- app_next_frame app ;; next_frames n' app'
  end.

(** [n] calls of [app_timer_increment], each with [fuel]; the returned
    flags are dropped. *)
Fixpoint ticks (n fuel : nat) (app : App) : option App :=
  match n with
  | O => Some app
  | S n' =>
      r <- app_timer_increment fuel app ;;
      ticks n' fuel (snd r)
  end.

(** A well-formed engine state: the nodes form a cycle headed by
    [images], and the cursor is on one of them. *)
Definition wf (app : App) : bool :=
  cyclic (heap app) && (images app =? 0)
  && (current_frame app <? length (heap app)).

(** The cycle time as the design document words it: the sum of the delay
    of every block except the one whose successor is the first block. *)
Definition cycle_time (h : Heap) (images : GraphicList) : Q :=
  fold_left Qplus
    (map (fun node => delay (data node))
         (filter (fun node => negb (next node =? images)) h))
    0%Q.

(** The frame-advance loop as the design document words it.  [advance app
    n app'] : from [app] the loop performs [n] advances and stops in
    [app']. *)
Inductive advance : App -> nat -> App -> Prop :=
| advance_below app image :
    deref (heap app) (current_frame app) = Some image ->
    time_geb (timer app) (delay (data image)) = false ->
    advance app 0 app
| advance_freeze app image :
    deref (heap app) (current_frame app) = Some image ->
    time_geb (timer app) (delay (data image)) = true ->
    next image = images app ->
    looping (view app) = false ->
    advance app 0 app
| advance_step app image n app' :
    deref (heap app) (current_frame app) = Some image ->
    time_geb (timer app) (delay (data image)) = true ->
    ~ (next image = images app /\ looping (view app) = false) ->
    advance
      (mkApp (heap app) (view app) (images app) (next image)
             (time_sub (timer app) (delay (data image)))
             (full_time app) (state_text_visible app))
      n app' ->
    advance app (S n) app'.

(** tick() of the design document, for a state that is not paused. *)
Definition tick_spec (app : App) (advanced : bool) (app' : App) : Prop :=
  exists n,
    advance
      (mkApp (heap app) (view app) (images app) (current_frame app)
             (fmod (time_add (timer app) (playback_speed (view app)))
                   (full_time app))
             (full_time app) (state_text_visible app))
      n app'
    /\ advanced = (0 <? n).

End Rev1.

(** ** sdlapp.c, earlier revision: tick counter per frame *)

Module Rev0.

(** struct App of the earlier revision: the playback flags are fields of
    the App itself and the timer counts ticks. *)
Record App : Type := mkApp {
  heap : Heap;
  images : GraphicList;
  current_frame : GraphicList;
  timer : Z;
  paused : bool;
  looping : bool;
  playback_speed : Q;
  state_text_visible : bool
}.

(** [app->current_frame = app->current_frame->next; app->timer = 0;] *)
Definition app_next_frame (app : App) : option App :=
  node <- deref (heap app) (current_frame app) ;;
  Some (mkApp (heap app) (images app) (next node) 0%Z (paused app)
              (looping app) (playback_speed app) (state_text_visible app)).

(** [app_timer_increment].  The counter is an unbounded integer and the
    product [timer * playback_speed] is exact here; in C the counter has a
    fixed width and the product is rounded to a [double].  The two agree
    while the counter is small and the product is representable, as it is
    at speed 1. *)
Definition app_timer_increment (app : App) : option (bool * App) :=
  if paused app then Some (false, app)
  else
    image <- deref (heap app) (current_frame app) ;;
    let app1 :=
      mkApp (heap app) (images app) (current_frame app) (timer app + 1)%Z
            (paused app) (looping app) (playback_speed app)
            (state_text_visible app) in
    if Qle_bool (delay (data image))
                (inject_Z (timer app1) * playback_speed app1)
    then
      if negb (looping app1) && (next image =? images app1)
      then Some (false, app1)
      else
        app2 <- app_next_frame app1 ;;
        Some (true, app2)
    else Some (false, app1).

End Rev0.

(** ** LZW decoding of image data *)

Module LZW.

Inductive error : Type :=
| CorruptImageData.

(** The eight bits of a byte, least significant first. *)
Definition bits_of_byte (b : byte) : list bool :=
  let '(b0, (b1, (b2, (b3, (b4, (b5, (b6, b7))))))) := Byte.to_bits b in
  [b0; b1; b2; b3; b4; b5; b6; b7].

Definition bits_of_bytes (bs : list byte) : list bool :=
  flat_map bits_of_byte bs.

(** Value of a run of bits, least significant first. *)
Fixpoint bits_to_nat (bits : list bool) : nat :=
  match bits with
  | [] => 0
  | b :: bits' => (if b then 1 else 0) + 2 * bits_to_nat bits'
  end.

(** The next code of [w] bits and the bits after it; [None] when fewer than
    [w] bits are left. *)
Definition read_code (w : nat) (bits : list bool)
  : option (nat * list bool) :=
  if length bits <? w then None
  else Some (bits_to_nat (firstn w bits), skipn w bits).

(** A raw value as the byte that stores it. *)
Definition byte_of_raw (v : nat) : byte :=
  match Byte.of_nat (v mod 256) with
  | Some b => b
  | None => x00
  end.

(** State of the decoder.  [table] holds the entries added since the last
    clear code, oldest first: its k-th entry has code [end_code + 1 + k]. *)
Record decoder : Type := mkDecoder {
  table : list (list byte);
  code_width : nat;
  prev : option (list byte);
  output : list byte;
  rest : list bool
}.

Section Decode.

Variable min_code_size : nat.
Variable expected_pixel_count : nat.

Definition clear_code : nat := 2 ^ min_code_size.
Definition end_code : nat := clear_code + 1.

(** Entries in the dictionary, the two reserved codes included; this is
    also the next code to be assigned. *)
Definition entry_count (st : decoder) : nat :=
  clear_code + 2 + length (table st).

Definition initial (bits : list bool) : decoder :=
  mkDecoder [] (min_code_size + 1) None [] bits.

(** The byte string a data code stands for: a raw value, an entry of the
    table, or, for the next code to be assigned when a previous code
    exists, the previous string followed by its own first byte.  Any other
    code is not in the dictionary. *)
Definition entry_of (st : decoder) (c : nat) : option (list byte) :=
  if c <? clear_code then Some [byte_of_raw c]
  else if c <? entry_count st then nth_error (table st) (c - end_code - 1)
  else if c =? entry_count st then
    match prev st with
    | Some p => Some (p ++ firstn 1 p)
    | None => None
    end
  else None.

(** The table after a data code whose string is [e]: previous string plus
    first byte of [e], unless there is no previous code or the dictionary
    already has 4096 entries. *)
Definition extend (st : decoder) (e : list byte) : list (list byte) :=
  match prev st with
  | Some p =>
      if entry_count st <? 4096 then table st ++ [p ++ firstn 1 e]
      else table st
  | None => table st
  end.

(** The code width once the dictionary has [count] entries. *)
Definition grow (w count : nat) : nat :=
  if (count =? 2 ^ w) && (w <? 12) then S w else w.

(** One round of the decoder: either a next state or the final result.
    The decoder stops as soon as the expected number of pixels is there. *)
Definition step (st : decoder) : decoder + (list byte + error) :=
  if expected_pixel_count <=? length (output st) then
    inr (inl (firstn expected_pixel_count (output st)))
  else
    match read_code (code_width st) (rest st) with
    | None => inr (inr CorruptImageData)
    | Some (c, bits) =>
        if c =? clear_code then
          inl (mkDecoder [] (min_code_size + 1) None (output st) bits)
        else if c =? end_code then
          if length (output st) <? expected_pixel_count
          then inr (inr CorruptImageData)
          else inr (inl (firstn expected_pixel_count (output st)))
        else
          match entry_of st c with
          | None => inr (inr CorruptImageData)
          | Some e =>
              let t := extend st e in
              inl (mkDecoder t
                     (grow (code_width st) (clear_code + 2 + length t))
                     (Some e) (output st ++ e) bits)
          end
    end.

Fixpoint run (fuel : nat) (st : decoder) : option (list byte + error) :=
  match fuel with
  | O => None
  | S fuel' =>
      match step st with
      | inl st' => run fuel' st'
      | inr r => Some r
      end
  end.

(** The state after [k] rounds, if the decoder is still running then. *)
Fixpoint after (k : nat) (st : decoder) : option decoder :=
  match k with
  | O => Some st
  | S k' =>
      match step st with
      | inl st' => after k' st'
      | inr _ => None
      end
  end.

End Decode.

(** Modelled from the spec: the LZW decoder is not part of the sources at
    hand.  decode(min_code_size, compressed_bytes, expected_pixel_count):
    initial code width [min_code_size + 1], clear code [2^min_code_size],
    end code one above it; bits are taken least significant first across
    the bytes; a clear code resets the dictionary and the code width; an
    end code stops, with CorruptImageData when too few pixels were
    produced; output beyond the expected count is cut off; a stream that
    runs out, or names a code that is not in the dictionary, before the
    expected count is reached is corrupt.  Every round consumes at least
    one bit, so one unit of fuel per bit (and one to stop) is enough. *)
Definition decode (min_code_size : nat) (compressed_bytes : list byte)
  (expected_pixel_count : nat) : list byte + error :=
  let bits := bits_of_bytes compressed_bytes in
  match run min_code_size expected_pixel_count (S (length bits))
          (initial min_code_size bits) with
  | Some r => r
  | None => inr CorruptImageData
  end.

End LZW.

(** ** Sample data: three frames of delay 10 *)

Definition demo_gif : list Graphic :=
  [mkGraphic 0 4 4 10%Q; mkGraphic 1 4 4 10%Q; mkGraphic 2 4 4 10%Q].

(** The engine on [demo_gif] with the cursor on frame [cur]. *)
Definition demo_app (cur : GraphicList) (t : time) (pause loop : bool)
  : Rev1.App :=
  Rev1.mkApp (graphiclist_new demo_gif) (Rev1.mkViewer true pause loop 1%Q)
             0 cur t 20%Q false.

Definition demo_app0 (cur : GraphicList) (t : Z) (pause loop : bool)
  : Rev0.App :=
  Rev0.mkApp (graphiclist_new demo_gif) 0 cur t pause loop 1%Q false.

(** ** Notions used in the statements and proofs *)

(** The fields of the engine other than [timer] and [current_frame]. *)
Definition same_frame (app app' : Rev1.App) : Prop :=
  Rev1.heap app' = Rev1.heap app
  /\ Rev1.view app' = Rev1.view app
  /\ Rev1.images app' = Rev1.images app
  /\ Rev1.full_time app' = Rev1.full_time app
  /\ Rev1.state_text_visible app' = Rev1.state_text_visible app.

(** Cursor reached from node [c] after [k <= n] steps along a cycle of
    [n] nodes. *)
Definition pos_after (n c k : nat) : GraphicList :=
  if c + k <? n then c + k else c + k - n.

(** Number of steps from node [x] forward to node [c] in a cycle of [n]. *)
Definition dist (n c x : nat) : nat :=
  if x <=? c then c - x else c + n - x.

(** Sum of the delays of a run of nodes, accumulated as the C loop does. *)
Definition total_delay (l : list GraphicListNode) : Q :=
  fold_left Qplus (map (fun node => delay (data node)) l) 0%Q.

(** The state the frame-advance loop moves to when it leaves [image]. *)
Definition advanced_to (app : Rev1.App) (image : GraphicListNode) : Rev1.App :=
  Rev1.mkApp (Rev1.heap app) (Rev1.view app) (Rev1.images app) (next image)
             (time_sub (Rev1.timer app) (delay (data image)))
             (Rev1.full_time app) (Rev1.state_text_visible app).

(** The engine [app] with the cursor on node [i] and the timer at [t]. *)
Definition at_frame (app : Rev1.App) (i : GraphicList) (t : Q) : Rev1.App :=
  Rev1.mkApp (Rev1.heap app) (Rev1.view app) (Rev1.images app) i (Num t)
             (Rev1.full_time app) (Rev1.state_text_visible app).

(** ** sdlapp.c, later revision: setters and sequences of calls *)

Module Rev1Ops.

(** [app->view.paused = paused;]  The text handed to the text renderer is
    outside the model. *)
Definition app_set_paused (app : Rev1.App) (paused : bool) : Rev1.App :=
  Rev1.mkApp (Rev1.heap app)
    (Rev1.mkViewer (Rev1.running (Rev1.view app)) paused
       (Rev1.looping (Rev1.view app)) (Rev1.playback_speed (Rev1.view app)))
    (Rev1.images app) (Rev1.current_frame app) (Rev1.timer app)
    (Rev1.full_time app) (Rev1.state_text_visible app).

(** [app->view.looping = looping;] *)
Definition app_set_looping (app : Rev1.App) (looping : bool) : Rev1.App :=
  Rev1.mkApp (Rev1.heap app)
    (Rev1.mkViewer (Rev1.running (Rev1.view app))
       (Rev1.paused (Rev1.view app)) looping
       (Rev1.playback_speed (Rev1.view app)))
    (Rev1.images app) (Rev1.current_frame app) (Rev1.timer app)
    (Rev1.full_time app) (Rev1.state_text_visible app).

(** [app->view.playback_speed = playback_speed;] *)
Definition app_set_playback_speed (app : Rev1.App) (playback_speed : Q)
  : Rev1.App :=
  Rev1.mkApp (Rev1.heap app)
    (Rev1.mkViewer (Rev1.running (Rev1.view app))
       (Rev1.paused (Rev1.view app)) (Rev1.looping (Rev1.view app))
       playback_speed)
    (Rev1.images app) (Rev1.current_frame app) (Rev1.timer app)
    (Rev1.full_time app) (Rev1.state_text_visible app).


(** The calls a user of the engine can make. *)
Inductive call : Type :=
| Tick
| NextFrame
| PreviousFrame
| SetPaused (paused : bool)
| SetLooping (looping : bool)
| SetPlaybackSpeed (playback_speed : Q).

Definition do_call (fuel : nat) (c : call) (app : Rev1.App)
  : option Rev1.App :=
  match c with
  | Tick => r <- Rev1.app_timer_increment fuel app ;; Some (snd r)
  | NextFrame => Rev1.app_next_frame app
  | PreviousFrame => Rev1.app_previous_frame fuel app
  | SetPaused b => Some (app_set_paused app b)
  | SetLooping b => Some (app_set_looping app b)
  | SetPlaybackSpeed q => Some (app_set_playback_speed app q)
  end.

Fixpoint do_calls (fuel : nat) (cs : list call) (app : Rev1.App)
  : option Rev1.App :=
  match cs with
  | [] => Some app
  | c :: cs' => app' <- do_call fuel c app ;; do_calls fuel cs' app'
  end.

(** Sum of the delays of the [n] frames met from node [c] on. *)
Fixpoint walked (h : Heap) (n : nat) (c : GraphicList) : Q :=
  match n with
  | O => 0%Q
  | S n' =>
      match deref h c with
      | Some node => (delay (data node) + walked h n' (next node))%Q
      | None => 0%Q
      end
  end.

(** The node reached from [c] after [n] steps along [next]. *)
Fixpoint walk_to (h : Heap) (n : nat) (c : GraphicList) : GraphicList :=
  match n with
  | O => c
  | S n' =>
      match deref h c with
      | Some node => walk_to h n' (next node)
      | None => c
      end
  end.

End Rev1Ops.

(** ** sdlapp.c, earlier revision: going back and sequences of ticks *)

Module Rev0Ops.

(** The [while] loop of [app_previous_frame]. *)
Fixpoint previous_loop (fuel : nat) (current : GraphicList) (app : Rev0.App)
  : option Rev0.App :=
  match fuel with
  | O => None
  | S fuel' =>
      node <- deref (Rev0.heap app) (Rev0.current_frame app) ;;
      if negb (next node =? current) then
        app' <- Rev0.app_next_frame app ;;
        previous_loop fuel' current app'
      else Some app
  end.

Definition app_previous_frame (fuel : nat) (app : Rev0.App)
  : option Rev0.App :=
  app' <- previous_loop fuel (Rev0.current_frame app) app ;;
  Some (Rev0.mkApp (Rev0.heap app') (Rev0.images app')
          (Rev0.current_frame app') 0%Z (Rev0.paused app')
          (Rev0.looping app') (Rev0.playback_speed app')
          (Rev0.state_text_visible app')).

(** [n] calls of [app_timer_increment]; the returned flags are dropped. *)
Fixpoint ticks (n : nat) (app : Rev0.App) : option Rev0.App :=
  match n with
  | O => Some app
  | S n' =>
      r <- Rev0.app_timer_increment app ;;
      ticks n' (snd r)
  end.

(** A well-formed engine state of the earlier revision. *)
Definition wf (app : Rev0.App) : bool :=
  cyclic (Rev0.heap app) && (Rev0.images app =? 0)
  && (Rev0.current_frame app <? length (Rev0.heap app)).

(** [app] with the cursor on node [c]. *)
Definition at_cursor (app : Rev0.App) (c : GraphicList) (t : Z) : Rev0.App :=
  Rev0.mkApp (Rev0.heap app) (Rev0.images app) c t (Rev0.paused app)
             (Rev0.looping app) (Rev0.playback_speed app)
             (Rev0.state_text_visible app).

End Rev0Ops.

(** ** sdlapp.c: the background grid and the frame rectangle *)

Module Screen.

(** SDL_Rect *)
Record SDL_Rect : Type := mkRect {
  x : Z;
  y : Z;
  w : Z;
  h : Z
}.

(** Size (in pixels) of background grid squares. *)
Definition BACKGROUND_GRID_SIZE : Z := 8.

(** The inner [for] loop of [_generate_bg_grid]: the squares filled with
    colour B on row [y], from column [x] on. *)
Fixpoint grid_row (fuel : nat) (width x y : Z) : option (list SDL_Rect) :=
  match fuel with
  | O => None
  | S fuel' =>
      if (x <? width)%Z then
        rects <- grid_row fuel' width (x + BACKGROUND_GRID_SIZE * 2)%Z y ;;
        Some (mkRect x (y * BACKGROUND_GRID_SIZE)%Z BACKGROUND_GRID_SIZE
                     BACKGROUND_GRID_SIZE :: rects)
      else Some []
  end.

(** The outer [for] loop, from row [y] on. *)
Fixpoint grid_rows (fuel fuel_x : nat) (width height y : Z)
  : option (list SDL_Rect) :=
  match fuel with
  | O => None
  | S fuel' =>
      if (y <? Z.quot height BACKGROUND_GRID_SIZE + 1)%Z then
        let initial_x :=
          if (Z.rem y 2 =? 1)%Z then 0%Z else BACKGROUND_GRID_SIZE in
        row <- grid_row fuel_x width initial_x y ;;
        rows <- grid_rows fuel' fuel_x width height (y + 1)%Z ;;
        Some (row ++ rows)
      else Some []
  end.

(** [_generate_bg_grid]: after the whole surface is filled with colour A,
    the rectangles filled with colour B, in the order of the calls. *)
Definition _generate_bg_grid (fuel : nat) (width height : Z)
  : option (list SDL_Rect) :=
  grid_rows fuel fuel width height 0%Z.

Definition rect_has (px py : Z) (r : SDL_Rect) : bool :=
  ((x r <=? px) && (px <? x r + w r) && (y r <=? py) && (py <? y r + h r))%Z.

(** Whether the pixel at ([px], [py]) ends up in colour B. *)
Definition painted_b (rects : list SDL_Rect) (px py : Z) : bool :=
  existsb (rect_has px py) rects.






End Screen.

(** Predecessor of node [c] in a cycle of [n] nodes laid out in order. *)
Definition predecessor (n c : nat) : GraphicList :=
  if c =? 0 then n - 1 else c - 1.


(** Two frames of delay 10, and the engine [app_new] builds on them. *)
Definition demo_two : list Graphic :=
  [mkGraphic 0 4 4 10%Q; mkGraphic 1 4 4 10%Q].

Definition demo_two_app (cur : GraphicList) (t : time) (loop : bool)
  : Rev1.App :=
  Rev1.mkApp (graphiclist_new demo_two) (Rev1.mkViewer true false loop 1%Q)
             0 cur t 10%Q false.

(** What every call of the engine keeps: the list [h], a cursor on it, and
    the cycle time [ft]. *)
Definition engine_inv (h : Heap) (ft : Q) (app : Rev1.App) : Prop :=
  Rev1.wf app = true /\ Rev1.heap app = h /\ Rev1.full_time app = ft.

(** * Properties *)

(** ** The cyclic list *)

Lemma linked_from_nth n i h k node :
  linked_from n i h = true ->
  nth_error h k = Some node ->
  next node = successor n (i + k).
Proof.
  revert i k. induction h as [|x h IH]; intros i k Hl Hk.
  - destruct k; discriminate.
  - simpl in Hl. apply andb_true_iff in Hl. destruct Hl as [Hx Hl].
    destruct k as [|k]; simpl in Hk.
    + inversion Hk; subst. apply Nat.eqb_eq in Hx.
      now rewrite Nat.add_0_r.
    + rewrite (IH (S i) k Hl Hk). f_equal. lia.
Qed.

Lemma cyclic_next h i node :
  cyclic h = true ->
  deref h i = Some node ->
  next node = successor (length h) i.
Proof.
  unfold cyclic, deref. intros Hc Hi.
  apply andb_true_iff in Hc. destruct Hc as [_ Hl].
  exact (linked_from_nth _ 0 h i node Hl Hi).
Qed.

Lemma cyclic_nonempty h : cyclic h = true -> 0 < length h.
Proof.
  unfold cyclic. intros Hc. apply andb_true_iff in Hc.
  destruct Hc as [Hn _]. apply negb_true_iff, Nat.eqb_neq in Hn. lia.
Qed.

Lemma deref_in_range h i :
  i < length h -> exists node, deref h i = Some node.
Proof.
  intros Hi. unfold deref.
  destruct (nth_error h i) eqn:E; [eauto|].
  apply nth_error_None in E. lia.
Qed.

Lemma successor_in_range n i : i < n -> successor n i < n.
Proof.
  unfold successor. intros Hi.
  destruct (Nat.eqb_spec (S i) n); lia.
Qed.

Lemma link_length n i gs : length (link n i gs) = length gs.
Proof.
  revert i. induction gs as [|g gs IH]; intros i; simpl; [reflexivity|].
  now rewrite IH.
Qed.

Lemma link_linked n i gs : linked_from n i (link n i gs) = true.
Proof.
  revert i. induction gs as [|g gs IH]; intros i; simpl; [reflexivity|].
  now rewrite Nat.eqb_refl, IH.
Qed.

Lemma graphiclist_new_cyclic gif :
  gif <> [] -> cyclic (graphiclist_new gif) = true.
Proof.
  intros Hne. unfold cyclic, graphiclist_new.
  rewrite link_length, link_linked.
  destruct gif; [contradiction|reflexivity].
Qed.

Lemma link_data n i gs : map data (link n i gs) = gs.
Proof.
  revert i. induction gs as [|g gs IH]; intros i; simpl; [reflexivity|].
  now rewrite IH.
Qed.

(** ** Unfolding a well-formed state *)

Lemma wf_unfold (app : Rev1.App) :
  Rev1.wf app = true ->
  cyclic (Rev1.heap app) = true
  /\ Rev1.images app = 0
  /\ Rev1.current_frame app < length (Rev1.heap app).
Proof.
  unfold Rev1.wf. intros H.
  apply andb_true_iff in H. destruct H as [H H3].
  apply andb_true_iff in H. destruct H as [H1 H2].
  apply Nat.eqb_eq in H2. apply Nat.ltb_lt in H3. auto.
Qed.

Lemma wf_fold (app : Rev1.App) :
  cyclic (Rev1.heap app) = true ->
  Rev1.images app = 0 ->
  Rev1.current_frame app < length (Rev1.heap app) ->
  Rev1.wf app = true.
Proof.
  unfold Rev1.wf. intros H1 H2 H3.
  rewrite H1, H2. simpl. now apply Nat.ltb_lt.
Qed.

(** [app_next_frame] on a well-formed state. *)
Lemma next_frame_wf (app : Rev1.App) :
  Rev1.wf app = true ->
  exists node,
    deref (Rev1.heap app) (Rev1.current_frame app) = Some node
    /\ next node = successor (length (Rev1.heap app)) (Rev1.current_frame app)
    /\ Rev1.app_next_frame app =
       Some (Rev1.mkApp (Rev1.heap app) (Rev1.view app) (Rev1.images app)
               (next node)
               (time_sub (Rev1.timer app) (delay (data node)))
               (Rev1.full_time app) (Rev1.state_text_visible app)).
Proof.
  intros Hwf. destruct (wf_unfold _ Hwf) as (Hc & _ & Hr).
  destruct (deref_in_range _ _ Hr) as [node Hn].
  exists node. split; [exact Hn|]. split.
  - now apply cyclic_next.
  - unfold Rev1.app_next_frame. now rewrite Hn.
Qed.

(** ** Pausing *)

(** C8.  When playback is paused, a tick is a no-op: the state, and so its
    timer and its cursor, is returned as it was, and the call answers
    [false].  This holds of the later revision (through
    [viewer_should_timer_increment]) and of the earlier one (which tests the
    flag itself), whatever the fuel. *)
Theorem paused_tick_is_noop :
  forall (fuel : nat) (app : Rev1.App) (app0 : Rev0.App),
    Rev1.paused (Rev1.view app) = true ->
    Rev0.paused app0 = true ->
    Rev1.app_timer_increment fuel app = Some (false, app)
    /\ Rev0.app_timer_increment app0 = Some (false, app0).
Proof.
  intros fuel app app0 Hp Hp0. split.
  - unfold Rev1.app_timer_increment, Rev1.viewer_should_timer_increment.
    now rewrite Hp.
  - unfold Rev0.app_timer_increment. now rewrite Hp0.
Qed.

(** ** What a tick leaves alone *)

Lemma same_frame_refl app : same_frame app app.
Proof. repeat split. Qed.

Lemma same_frame_trans a b c :
  same_frame a b -> same_frame b c -> same_frame a c.
Proof.
  unfold same_frame. intros (H1 & H2 & H3 & H4 & H5) (K1 & K2 & K3 & K4 & K5).
  repeat split; congruence.
Qed.

Lemma next_frame_same_frame app app' :
  Rev1.app_next_frame app = Some app' -> same_frame app app'.
Proof.
  unfold Rev1.app_next_frame. intros H.
  destruct (deref (Rev1.heap app) (Rev1.current_frame app)); [|discriminate].
  inversion H; subst. repeat split.
Qed.

Lemma timer_loop_same_frame fuel :
  forall app adv b app',
    Rev1.timer_loop fuel app adv = Some (b, app') -> same_frame app app'.
Proof.
  induction fuel as [|fuel IH]; intros app adv b app' H; [discriminate|].
  simpl in H.
  destruct (deref (Rev1.heap app) (Rev1.current_frame app)) as [image|] eqn:Hd;
    [|discriminate].
  destruct (time_geb (Rev1.timer app) (delay (data image))).
  - unfold Rev1._is_app_on_final_frame in H. rewrite Hd in H.
    destruct ((next image =? Rev1.images app)
              && negb (Rev1.looping (Rev1.view app))).
    + inversion H; subst. apply same_frame_refl.
    + destruct (Rev1.app_next_frame app) as [app1|] eqn:Hn; [|discriminate].
      eapply same_frame_trans.
      * eapply next_frame_same_frame; eassumption.
      * eapply IH; eassumption.
  - inversion H; subst. apply same_frame_refl.
Qed.

(** C10.  A call of [app_timer_increment] that returns changes at most the
    [timer] and [current_frame] fields: the state afterwards is the state
    before with those two fields replaced.  In particular the paused and
    looping flags and the playback speed (the [view]), [full_time], and the
    list of frames with its links, delays and pixel handles (the [heap] and
    its head [images]) are the same afterwards, whatever flag the call
    returns. *)
Theorem tick_frame :
  forall (fuel : nat) (app app' : Rev1.App) (advanced : bool),
    Rev1.app_timer_increment fuel app = Some (advanced, app') ->
    app' = Rev1.mkApp (Rev1.heap app) (Rev1.view app) (Rev1.images app)
             (Rev1.current_frame app') (Rev1.timer app')
             (Rev1.full_time app) (Rev1.state_text_visible app)
    /\ Rev1.heap app' = Rev1.heap app
    /\ Rev1.images app' = Rev1.images app
    /\ Rev1.paused (Rev1.view app') = Rev1.paused (Rev1.view app)
    /\ Rev1.looping (Rev1.view app') = Rev1.looping (Rev1.view app)
    /\ Rev1.playback_speed (Rev1.view app')
       = Rev1.playback_speed (Rev1.view app)
    /\ Rev1.full_time app' = Rev1.full_time app.
Proof.
  intros fuel app app' advanced H.
  assert (Hs : same_frame app app').
  { unfold Rev1.app_timer_increment in H.
    destruct (negb (Rev1.viewer_should_timer_increment (Rev1.view app))).
    - inversion H; subst. apply same_frame_refl.
    - apply timer_loop_same_frame in H.
      destruct H as (H1 & H2 & H3 & H4 & H5). repeat split; assumption. }
  destruct Hs as (H1 & H2 & H3 & H4 & H5).
  split; [|rewrite H2; repeat split; assumption].
  rewrite <- H1, <- H2, <- H3, <- H4, <- H5. now destruct app'.
Qed.

Lemma paused_tick_is_noop_witness :
  Rev1.app_timer_increment 0 (demo_app 1 (Num 3) true true)
  = Some (false, demo_app 1 (Num 3) true true)
  /\ Rev0.app_timer_increment (demo_app0 1 3 true true)
     = Some (false, demo_app0 1 3 true true).
Proof.
  apply (paused_tick_is_noop 0 (demo_app 1 (Num 3) true true)
           (demo_app0 1 3 true true)); reflexivity.
Defined.

Lemma tick_frame_witness :
  demo_app 1 (Num 0) false true
  = Rev1.mkApp (Rev1.heap (demo_app 0 (Num 9) false true))
      (Rev1.view (demo_app 0 (Num 9) false true))
      (Rev1.images (demo_app 0 (Num 9) false true))
      1 (Num 0)
      (Rev1.full_time (demo_app 0 (Num 9) false true))
      (Rev1.state_text_visible (demo_app 0 (Num 9) false true))
  /\ Rev1.heap (demo_app 1 (Num 0) false true)
     = Rev1.heap (demo_app 0 (Num 9) false true)
  /\ Rev1.images (demo_app 1 (Num 0) false true) = 0
  /\ Rev1.paused (Rev1.view (demo_app 1 (Num 0) false true)) = false
  /\ Rev1.looping (Rev1.view (demo_app 1 (Num 0) false true)) = true
  /\ Rev1.playback_speed (Rev1.view (demo_app 1 (Num 0) false true)) = 1%Q
  /\ Rev1.full_time (demo_app 1 (Num 0) false true) = 20%Q.
Proof.
  apply (tick_frame 5 (demo_app 0 (Num 9) false true)
           (demo_app 1 (Num 0) false true) true).
  vm_compute. reflexivity.
Defined.

(** ** Freezing on the final frame *)

Lemma tick_on_final_frame fuel app node :
  deref (Rev1.heap app) (Rev1.current_frame app) = Some node ->
  next node = Rev1.images app ->
  Rev1.looping (Rev1.view app) = false ->
  exists t,
    Rev1.app_timer_increment (S fuel) app
    = Some (false, Rev1.set_timer app t).
Proof.
  intros Hd Hn Hl. unfold Rev1.app_timer_increment.
  destruct (negb (Rev1.viewer_should_timer_increment (Rev1.view app))).
  - exists (Rev1.timer app). destruct app; reflexivity.
  - set (t := fmod _ _). exists t.
    cbn [Rev1.timer_loop]. unfold Rev1._is_app_on_final_frame.
    cbn [Rev1.set_timer Rev1.heap Rev1.current_frame Rev1.timer
         Rev1.images Rev1.view].
    rewrite Hd, Hn, Hl, Nat.eqb_refl. cbn [andb negb].
    destruct (time_geb t (delay (data node))); reflexivity.
Qed.

(** C3.  With looping off, once the cursor is on the final frame (the node
    whose successor is the head of the list), any number of further ticks
    leaves it there: each tick returns (one unit of fuel is enough), never
    reports an advance, and the cursor is the same node after [n] ticks. *)
Theorem non_looping_freezes_on_final_frame :
  forall (n fuel : nat) (app : Rev1.App) (node : GraphicListNode),
    deref (Rev1.heap app) (Rev1.current_frame app) = Some node ->
    next node = Rev1.images app ->
    Rev1.looping (Rev1.view app) = false ->
    exists app',
      Rev1.ticks n (S fuel) app = Some app'
      /\ Rev1.current_frame app' = Rev1.current_frame app.
Proof.
  induction n as [|n IH]; intros fuel app node Hd Hn Hl.
  - exists app. split; reflexivity.
  - destruct (tick_on_final_frame fuel app node Hd Hn Hl) as [t Ht].
    cbn [Rev1.ticks]. rewrite Ht. cbn [snd].
    destruct (IH fuel (Rev1.set_timer app t) node) as (app' & Hr & Hc);
      try assumption.
    exists app'. split; [exact Hr|exact Hc].
Qed.

Lemma non_looping_freezes_on_final_frame_witness :
  exists app',
    Rev1.ticks 100 (S 0) (demo_app 2 (Num 7) false false) = Some app'
    /\ Rev1.current_frame app' = 2.
Proof.
  apply (non_looping_freezes_on_final_frame 100 0
           (demo_app 2 (Num 7) false false)
           (mkNode (mkGraphic 2 4 4 10%Q) 0)); reflexivity.
Defined.

(** ** Stepping to the next frame *)

(** C4.  [app_next_frame] is to move the cursor to the successor and reset
    the timer to 0.  The later revision moves the cursor but does not reset
    the timer: called with timer 3 on the first of three frames of delay 10
    it leaves the timer at 3 - 10.  On the same state its sibling
    [app_previous_frame] does leave the timer at 0, and so does
    [app_next_frame] of the earlier revision. *)
Theorem next_frame_leaves_timer_unreset :
  option_map Rev1.current_frame
    (Rev1.app_next_frame (demo_app 0 (Num 3) false true))
  = Some 1
  /\ option_map Rev1.timer
       (Rev1.app_next_frame (demo_app 0 (Num 3) false true))
     = Some (Num (3 - 10))
  /\ ~ (3 - 10 == 0)%Q
  /\ option_map Rev1.timer
       (Rev1.app_previous_frame 3 (demo_app 0 (Num 3) false true))
     = Some (Num 0)
  /\ option_map Rev0.timer
       (Rev0.app_next_frame (demo_app0 0 3 false true))
     = Some 0%Z.
Proof.
  split; [reflexivity|]. split; [reflexivity|].
  split; [intros H; discriminate H|]. split; reflexivity.
Qed.

(** What [app_next_frame] does in each revision.  Both move the cursor to
    the successor of the current node; the later revision subtracts the
    delay of the node it leaves from the timer, the earlier one sets the
    timer to 0. *)
Theorem next_frame_moves_to_successor :
  forall (app : Rev1.App) (app0 : Rev0.App) (node node0 : GraphicListNode),
    deref (Rev1.heap app) (Rev1.current_frame app) = Some node ->
    deref (Rev0.heap app0) (Rev0.current_frame app0) = Some node0 ->
    (exists app',
        Rev1.app_next_frame app = Some app'
        /\ Rev1.current_frame app' = next node
        /\ Rev1.timer app' = time_sub (Rev1.timer app) (delay (data node)))
    /\ (exists app0',
           Rev0.app_next_frame app0 = Some app0'
           /\ Rev0.current_frame app0' = next node0
           /\ Rev0.timer app0' = 0%Z).
Proof.
  intros app app0 node node0 Hd Hd0. split.
  - unfold Rev1.app_next_frame. rewrite Hd.
    eexists. split; [reflexivity|]. split; reflexivity.
  - unfold Rev0.app_next_frame. rewrite Hd0.
    eexists. split; [reflexivity|]. split; reflexivity.
Qed.

Lemma next_frame_moves_to_successor_witness :
  (exists app',
      Rev1.app_next_frame (demo_app 2 (Num 3) false true) = Some app'
      /\ Rev1.current_frame app' = 0
      /\ Rev1.timer app' = time_sub (Num 3) 10%Q)
  /\ (exists app0',
         Rev0.app_next_frame (demo_app0 2 3 false true) = Some app0'
         /\ Rev0.current_frame app0' = 0
         /\ Rev0.timer app0' = 0%Z).
Proof.
  apply (next_frame_moves_to_successor
           (demo_app 2 (Num 3) false true) (demo_app0 2 3 false true)
           (mkNode (mkGraphic 2 4 4 10%Q) 0)
           (mkNode (mkGraphic 2 4 4 10%Q) 0)); reflexivity.
Defined.

(** ** Going round the cycle *)

Lemma next_frame_step (app : Rev1.App) :
  Rev1.wf app = true ->
  exists app',
    Rev1.app_next_frame app = Some app'
    /\ Rev1.current_frame app'
       = successor (length (Rev1.heap app)) (Rev1.current_frame app)
    /\ same_frame app app'
    /\ Rev1.wf app' = true.
Proof.
  intros Hwf. destruct (next_frame_wf app Hwf) as (node & Hd & Hn & Hs).
  destruct (wf_unfold _ Hwf) as (Hc & Hi & Hr).
  eexists. split; [exact Hs|].
  split; [exact Hn|]. split; [repeat split|].
  apply wf_fold; cbn; try assumption.
  rewrite Hn. now apply successor_in_range.
Qed.

Lemma next_frames_pos k :
  forall app,
    Rev1.wf app = true ->
    k <= length (Rev1.heap app) ->
    exists app',
      Rev1.next_frames k app = Some app'
      /\ Rev1.current_frame app'
         = pos_after (length (Rev1.heap app)) (Rev1.current_frame app) k
      /\ same_frame app app'.
Proof.
  induction k as [|k IH]; intros app Hwf Hk.
  - exists app. split; [reflexivity|]. split; [|apply same_frame_refl].
    destruct (wf_unfold _ Hwf) as (_ & _ & Hr).
    unfold pos_after. rewrite Nat.add_0_r.
    apply Nat.ltb_lt in Hr. now rewrite Hr.
  - destruct (next_frame_step app Hwf) as (app1 & Hs & Hc1 & Hf1 & Hwf1).
    destruct (wf_unfold _ Hwf) as (_ & _ & Hr).
    assert (Hh : Rev1.heap app1 = Rev1.heap app) by apply Hf1.
    destruct (IH app1 Hwf1) as (app' & Hn & Hc & Hf).
    { rewrite Hh. lia. }
    exists app'. cbn [Rev1.next_frames]. rewrite Hs.
    split; [exact Hn|]. split; [|eapply same_frame_trans; eassumption].
    rewrite Hc, Hh, Hc1. unfold pos_after, successor.
    destruct (Nat.eqb_spec (S (Rev1.current_frame app))
                (length (Rev1.heap app)));
      repeat match goal with
             | |- context [?a <? ?b] => destruct (Nat.ltb_spec a b)
             end; lia.
Qed.

Lemma successor_inj n x c :
  x < n -> c < n -> successor n x = successor n c -> x = c.
Proof.
  unfold successor. intros Hx Hc.
  destruct (Nat.eqb_spec (S x) n), (Nat.eqb_spec (S c) n); lia.
Qed.

Lemma previous_loop_finds d :
  forall app c,
    Rev1.wf app = true ->
    c < length (Rev1.heap app) ->
    dist (length (Rev1.heap app)) c (Rev1.current_frame app) = d ->
    exists app',
      (forall fuel, d < fuel ->
         Rev1.previous_loop fuel (successor (length (Rev1.heap app)) c) app
         = Some app')
      /\ Rev1.current_frame app' = c
      /\ same_frame app app'.
Proof.
  induction d as [|d IH]; intros app c Hwf Hc Hd;
    destruct (wf_unfold _ Hwf) as (Hcy & _ & Hr);
    destruct (next_frame_wf app Hwf) as (node & Hn & Hnx & Hs).
  - assert (Rev1.current_frame app = c).
    { unfold dist in Hd.
      destruct (Nat.leb_spec (Rev1.current_frame app) c); lia. }
    subst c. exists app. split; [|split; [reflexivity|apply same_frame_refl]].
    intros [|fuel] Hfuel; [lia|].
    cbn [Rev1.previous_loop]. now rewrite Hn, Hnx, Nat.eqb_refl.
  - assert (Hne : Rev1.current_frame app <> c).
    { intros E. rewrite E in Hd. unfold dist in Hd.
      rewrite Nat.leb_refl in Hd. lia. }
    destruct (next_frame_step app Hwf) as (app1 & Hs1 & Hc1 & Hf1 & Hwf1).
    assert (Hh : Rev1.heap app1 = Rev1.heap app) by apply Hf1.
    destruct (IH app1 c Hwf1) as (app' & Hp & Hcur & Hf).
    + rewrite Hh. exact Hc.
    + rewrite Hh, Hc1. unfold dist, successor in *.
      destruct (Nat.eqb_spec (S (Rev1.current_frame app))
                  (length (Rev1.heap app)));
        repeat match goal with
               | H : context [?a <=? ?b] |- _ => destruct (Nat.leb_spec a b)
               | |- context [?a <=? ?b] => destruct (Nat.leb_spec a b)
               end; lia.
    + exists app'. split; [|split; [exact Hcur|]].
      * intros [|fuel] Hfuel; [lia|].
        cbn [Rev1.previous_loop]. rewrite Hn, Hnx.
        destruct (Nat.eqb_spec
                    (successor (length (Rev1.heap app))
                       (Rev1.current_frame app))
                    (successor (length (Rev1.heap app)) c)) as [E|E].
        { apply successor_inj in E; [contradiction|assumption|assumption]. }
        cbn [negb]. rewrite Hs1. rewrite Hh in Hp. apply Hp. lia.
      * eapply same_frame_trans; eassumption.
Qed.

(** C5.  On a cyclic list of N >= 1 frames, from any frame: N calls of
    [app_next_frame] bring the cursor back to the frame it started from; and
    [app_previous_frame] called right after [app_next_frame] returns (N
    units of fuel are enough), puts the cursor back on the original frame
    and leaves the timer at 0. *)
Theorem cyclic_navigation :
  forall app : Rev1.App,
    Rev1.wf app = true ->
    (exists app',
        Rev1.next_frames (length (Rev1.heap app)) app = Some app'
        /\ Rev1.current_frame app' = Rev1.current_frame app)
    /\ (exists app1 app2,
           Rev1.app_next_frame app = Some app1
           /\ (forall fuel, length (Rev1.heap app) <= fuel ->
                 Rev1.app_previous_frame fuel app1 = Some app2)
           /\ Rev1.current_frame app2 = Rev1.current_frame app
           /\ Rev1.timer app2 = Num 0).
Proof.
  intros app Hwf. destruct (wf_unfold _ Hwf) as (Hcy & _ & Hr). split.
  - destruct (next_frames_pos (length (Rev1.heap app)) app Hwf (le_n _))
      as (app' & Hn & Hc & _).
    exists app'. split; [exact Hn|]. rewrite Hc. unfold pos_after.
    destruct (Nat.ltb_spec
                (Rev1.current_frame app + length (Rev1.heap app))
                (length (Rev1.heap app))); lia.
  - destruct (next_frame_step app Hwf) as (app1 & Hs1 & Hc1 & Hf1 & Hwf1).
    assert (Hh : Rev1.heap app1 = Rev1.heap app) by apply Hf1.
    destruct (previous_loop_finds _ app1 (Rev1.current_frame app) Hwf1
                (eq_ind_r (fun h => _ < length h) Hr Hh) eq_refl)
      as (app2 & Hp & Hc2 & Hf2).
    exists app1, (Rev1.set_timer app2 (Num 0)).
    split; [exact Hs1|]. split; [|split; [exact Hc2|reflexivity]].
    intros fuel Hfuel. unfold Rev1.app_previous_frame.
    rewrite Hh, <- Hc1 in Hp. rewrite Hp; [reflexivity|].
    rewrite Hc1. unfold dist, successor.
    destruct (Nat.eqb_spec (S (Rev1.current_frame app))
                (length (Rev1.heap app)));
      match goal with
      | |- context [?a <=? ?b] => destruct (Nat.leb_spec a b)
      end; lia.
Qed.

Lemma cyclic_navigation_witness :
  (exists app',
      Rev1.next_frames 3 (demo_app 1 (Num 3) false true) = Some app'
      /\ Rev1.current_frame app' = 1)
  /\ (exists app1 app2,
         Rev1.app_next_frame (demo_app 1 (Num 3) false true) = Some app1
         /\ (forall fuel, 3 <= fuel ->
               Rev1.app_previous_frame fuel app1 = Some app2)
         /\ Rev1.current_frame app2 = 1
         /\ Rev1.timer app2 = Num 0).
Proof.
  apply (cyclic_navigation (demo_app 1 (Num 3) false true)). reflexivity.
Defined.

(** ** Construction *)

Lemma skipn_deref h i node :
  deref h i = Some node -> skipn i h = node :: skipn (S i) h.
Proof.
  unfold deref. revert i. induction h as [|x h IH]; intros i Hi.
  - destruct i; discriminate.
  - destruct i as [|i]; simpl in Hi.
    + now inversion Hi.
    + simpl. now apply IH.
Qed.

Lemma full_time_loop_sum h m :
  cyclic h = true ->
  forall i acc fuel,
    i + m + 1 = length h ->
    m < fuel ->
    Rev1.full_time_loop fuel h 0 i acc
    = Some (fold_left Qplus
              (map (fun node => delay (data node)) (firstn m (skipn i h)))
              acc).
Proof.
  intros Hc. induction m as [|m IH]; intros i acc fuel Hi Hfuel;
    (destruct fuel as [|fuel]; [lia|]);
    (destruct (deref_in_range h i) as [node Hn]; [lia|]);
    pose proof (cyclic_next h i node Hc Hn) as Hnx;
    cbn [Rev1.full_time_loop]; rewrite Hn, Hnx; unfold successor.
  - destruct (Nat.eqb_spec (S i) (length h)); [|lia]. reflexivity.
  - destruct (Nat.eqb_spec (S i) (length h)); [lia|].
    cbn [Nat.eqb negb].
    rewrite (skipn_deref h i node Hn). cbn [firstn map fold_left].
    apply IH; lia.
Qed.

Lemma filter_linked n :
  forall h i,
    linked_from n i h = true ->
    i + length h = n ->
    filter (fun node => negb (next node =? 0)) h = removelast h.
Proof.
  induction h as [|node h IH]; intros i Hl Hi; [reflexivity|].
  simpl in Hl. apply andb_true_iff in Hl. destruct Hl as [Hx Hl].
  apply Nat.eqb_eq in Hx. cbn [filter]. rewrite Hx. unfold successor.
  destruct h as [|node' h].
  - simpl in Hi. destruct (Nat.eqb_spec (S i) n); [reflexivity|lia].
  - cbn [length] in Hi. destruct (Nat.eqb_spec (S i) n); [lia|].
    cbn [Nat.eqb negb]. change (removelast (node :: node' :: h))
      with (node :: removelast (node' :: h)).
    f_equal. apply (IH (S i)); [exact Hl|cbn [length]; lia].
Qed.

Lemma cycle_time_removelast h :
  cyclic h = true ->
  Rev1.cycle_time h 0
  = fold_left Qplus (map (fun node => delay (data node)) (removelast h)) 0%Q.
Proof.
  intros Hc. unfold Rev1.cycle_time. unfold cyclic in Hc.
  apply andb_true_iff in Hc. destruct Hc as [_ Hl].
  now rewrite (filter_linked (length h) h 0 Hl).
Qed.

Lemma full_time_loop_cycle_time h fuel :
  cyclic h = true ->
  length h <= fuel ->
  Rev1.full_time_loop fuel h 0 0 0%Q = Some (Rev1.cycle_time h 0).
Proof.
  intros Hc Hfuel. pose proof (cyclic_nonempty h Hc) as Hne.
  rewrite (full_time_loop_sum h (pred (length h)) Hc); [|lia|lia].
  rewrite cycle_time_removelast by assumption.
  now rewrite removelast_firstn_len.
Qed.

Lemma map_removelast {A B} (f : A -> B) (l : list A) :
  map f (removelast l) = removelast (map f l).
Proof.
  induction l as [|a l IH]; [reflexivity|].
  destruct l as [|b l]; [reflexivity|].
  change (removelast (a :: b :: l)) with (a :: removelast (b :: l)).
  cbn [map]. cbn [map] in IH. rewrite IH. reflexivity.
Qed.

(** C2.  Constructing the engine from a document of N >= 1 frames returns
    (N units of fuel are enough for the summing loop) a state whose cursor
    is the first frame, whose timer is 0, and whose [full_time] is the sum
    of the delays of every frame except the one whose successor is the first
    frame, that is, of all frames but the last. *)
Theorem app_new_resets :
  forall gif : list Graphic,
    gif <> [] ->
    exists app,
      (forall fuel, length gif <= fuel -> Rev1.app_new fuel gif = Some app)
      /\ Rev1.current_frame app = Rev1.images app
      /\ option_map data (deref (Rev1.heap app) (Rev1.current_frame app))
         = hd_error gif
      /\ Rev1.timer app = Num 0
      /\ Rev1.full_time app = Rev1.cycle_time (Rev1.heap app) (Rev1.images app)
      /\ Rev1.full_time app
         = fold_left Qplus (map delay (removelast gif)) 0%Q.
Proof.
  intros gif Hne.
  pose proof (graphiclist_new_cyclic gif Hne) as Hc.
  exists (Rev1.mkApp (graphiclist_new gif) (Rev1.mkViewer true false true 1%Q)
            0 0 (Num 0) (Rev1.cycle_time (graphiclist_new gif) 0) false).
  cbn [Rev1.current_frame Rev1.images Rev1.heap Rev1.timer Rev1.full_time].
  repeat split.
  - intros fuel Hfuel. unfold Rev1.app_new.
    rewrite full_time_loop_cycle_time; [reflexivity|exact Hc|].
    unfold graphiclist_new. now rewrite link_length.
  - destruct gif; [contradiction|reflexivity].
  - rewrite cycle_time_removelast by exact Hc.
    rewrite <- (map_map data delay), map_removelast.
    unfold graphiclist_new. now rewrite link_data.
Qed.

Lemma app_new_resets_witness :
  exists app,
    (forall fuel, 3 <= fuel -> Rev1.app_new fuel demo_gif = Some app)
    /\ Rev1.current_frame app = Rev1.images app
    /\ option_map data (deref (Rev1.heap app) (Rev1.current_frame app))
       = Some (mkGraphic 0 4 4 10%Q)
    /\ Rev1.timer app = Num 0
    /\ Rev1.full_time app = Rev1.cycle_time (Rev1.heap app) (Rev1.images app)
    /\ Rev1.full_time app = (0 + 10 + 10)%Q.
Proof.
  apply (app_new_resets demo_gif). discriminate.
Defined.

(** ** [fmod] *)

Lemma Qtrunc_gt (q : Q) : (q - 1 < inject_Z (Qtrunc q))%Q.
Proof.
  destruct q as [n d]. unfold Qtrunc. cbn [Qnum Qden].
  destruct (Z.le_gt_cases 0 n) as [Hn|Hn].
  - rewrite Z.quot_div_nonneg by lia.
    pose proof (Qlt_floor (n # d)) as H. unfold Qfloor in H.
    rewrite inject_Z_plus in H. change (inject_Z 1) with 1%Q in H.
    set (x := n # d) in *. set (z := inject_Z (n / Z.pos d)) in *. lra.
  - assert (E : Z.quot n (Z.pos d) = Qceiling (n # d)).
    { unfold Qceiling, Qfloor. cbn [Qopp Qnum Qden].
      rewrite <- (Z.opp_involutive n) at 1.
      rewrite Z.quot_opp_l by lia.
      rewrite Z.quot_div_nonneg by lia. reflexivity. }
    rewrite E. pose proof (Qle_ceiling (n # d)). lra.
Qed.

(** For a positive modulus the result of [fmod] is a number below it. *)
Lemma fmod_lt (a y : Q) :
  (0 < y)%Q -> exists r, fmod (Num a) y = Num r /\ (r < y)%Q.
Proof.
  intros Hy. unfold fmod.
  destruct (Qeq_bool y 0) eqn:E.
  - apply Qeq_bool_eq in E. lra.
  - eexists. split; [reflexivity|].
    pose proof (Qtrunc_gt (a / y)) as H.
    set (T := inject_Z (Qtrunc (a / y))) in *.
    assert (Ha : (a == y * (a / y))%Q) by (field; lra).
    assert (Hm : (y * (a / y - 1) < y * T)%Q).
    { apply Qmult_lt_l; assumption. }
    lra.
Qed.

(** ** Sums of delays *)

Lemma fold_left_Qplus_acc (l : list Q) (acc : Q) :
  (fold_left Qplus l acc == acc + fold_left Qplus l 0)%Q.
Proof.
  revert acc. induction l as [|x l IH]; intros acc; cbn [fold_left].
  - lra.
  - rewrite (IH (acc + x)%Q), (IH (0 + x)%Q). lra.
Qed.

Lemma total_delay_cons node l :
  (total_delay (node :: l) == delay (data node) + total_delay l)%Q.
Proof.
  unfold total_delay. cbn [map fold_left].
  rewrite fold_left_Qplus_acc. lra.
Qed.

Lemma total_delay_nil : total_delay [] = 0%Q.
Proof. reflexivity. Qed.

(** ** The frame-advance loop, one iteration at a time *)

Lemma timer_loop_unfold fuel app adv image :
  deref (Rev1.heap app) (Rev1.current_frame app) = Some image ->
  Rev1.timer_loop (S fuel) app adv
  = if time_geb (Rev1.timer app) (delay (data image)) then
      if (next image =? Rev1.images app)
         && negb (Rev1.looping (Rev1.view app))
      then Some (adv, app)
      else Rev1.timer_loop fuel (advanced_to app image) true
    else Some (adv, app).
Proof.
  intros Hd. cbn [Rev1.timer_loop].
  unfold Rev1._is_app_on_final_frame, Rev1.app_next_frame. rewrite Hd.
  reflexivity.
Qed.

Lemma time_geb_false_below t d : (t < d)%Q -> time_geb (Num t) d = false.
Proof.
  intros H. cbn. destruct (Qle_bool d t) eqn:E; [|reflexivity].
  apply Qle_bool_iff in E. lra.
Qed.

Lemma time_geb_true t d : time_geb t d = true ->
  exists a, t = Num a /\ (d <= a)%Q.
Proof.
  destruct t as [a|]; [|discriminate]. cbn. intros H.
  apply Qle_bool_iff in H. eauto.
Qed.

(** ** The frame-advance loop against its description *)

Lemma timer_loop_sound fuel :
  forall app adv b app',
    Rev1.timer_loop fuel app adv = Some (b, app') ->
    exists n, Rev1.advance app n app' /\ b = adv || (0 <? n).
Proof.
  induction fuel as [|fuel IH]; intros app adv b app' H; [discriminate|].
  destruct (deref (Rev1.heap app) (Rev1.current_frame app)) as [image|] eqn:Hd;
    [|cbn [Rev1.timer_loop] in H; rewrite Hd in H; discriminate].
  rewrite (timer_loop_unfold _ _ _ _ Hd) in H.
  destruct (time_geb (Rev1.timer app) (delay (data image))) eqn:Eg.
  - destruct (Nat.eqb_spec (next image) (Rev1.images app)) as [En|En];
      destruct (Rev1.looping (Rev1.view app)) eqn:El; cbn [andb negb] in H.
    + apply IH in H. destruct H as (n & Ha & Hb).
      exists (S n). split; [|now rewrite orb_true_r in *].
      eapply Rev1.advance_step; try eassumption. intros [_ K]. congruence.
    + inversion H; subst. exists 0. split; [|now rewrite orb_false_r].
      eapply Rev1.advance_freeze; eassumption.
    + apply IH in H. destruct H as (n & Ha & Hb).
      exists (S n). split; [|now rewrite orb_true_r in *].
      eapply Rev1.advance_step; try eassumption. intros [K _]. contradiction.
    + apply IH in H. destruct H as (n & Ha & Hb).
      exists (S n). split; [|now rewrite orb_true_r in *].
      eapply Rev1.advance_step; try eassumption. intros [K _]. contradiction.
  - inversion H; subst. exists 0. split; [|now rewrite orb_false_r].
    eapply Rev1.advance_below; eassumption.
Qed.

Lemma timer_loop_complete app n app' :
  Rev1.advance app n app' ->
  forall adv fuel, n < fuel ->
    Rev1.timer_loop fuel app adv = Some (adv || (0 <? n), app').
Proof.
  induction 1 as [app image Hd Eg|app image Hd Eg En El
                 |app image n app' Hd Eg Hne Hadv IH];
    intros adv [|fuel] Hfuel; try lia;
    rewrite (timer_loop_unfold _ _ _ _ Hd), Eg.
  - now rewrite orb_false_r.
  - rewrite En, Nat.eqb_refl, El. cbn [andb negb]. now rewrite orb_false_r.
  - assert (E : (next image =? Rev1.images app)
                && negb (Rev1.looping (Rev1.view app)) = false).
    { destruct (Nat.eqb_spec (next image) (Rev1.images app)) as [K|K];
        [|reflexivity].
      destruct (Rev1.looping (Rev1.view app)); [reflexivity|].
      exfalso. apply Hne. split; [exact K|reflexivity]. }
    rewrite E. unfold advanced_to. rewrite (IH true fuel) by lia.
    cbn [orb Nat.ltb Nat.leb]. now rewrite orb_true_r.
Qed.

(** ** Termination of the frame-advance loop *)

Lemma total_delay_app l1 l2 :
  (total_delay (l1 ++ l2) == total_delay l1 + total_delay l2)%Q.
Proof.
  induction l1 as [|x l1 IH]; cbn [app].
  - rewrite total_delay_nil. lra.
  - rewrite !total_delay_cons, IH. lra.
Qed.

Lemma total_delay_nonneg l :
  (forall node, In node l -> (0 <= delay (data node))%Q) ->
  (0 <= total_delay l)%Q.
Proof.
  induction l as [|x l IH]; intros H.
  - rewrite total_delay_nil. lra.
  - rewrite total_delay_cons.
    assert (0 <= delay (data x))%Q by (apply H; now left).
    assert (0 <= total_delay l)%Q by (apply IH; intros; apply H; now right).
    lra.
Qed.

Lemma firstn_add {A} (l : list A) i k :
  firstn (i + k) l = firstn i l ++ firstn k (skipn i l).
Proof.
  revert l. induction i as [|i IH]; intros l; [reflexivity|].
  destruct l as [|x l]; cbn [Nat.add firstn skipn app].
  - now rewrite firstn_nil.
  - now rewrite IH.
Qed.

Section Termination.

Variable h : Heap.
Hypothesis h_cyclic : cyclic h = true.
Hypothesis h_nonneg : delays_nonneg h.

Variable app : Rev1.App.
Hypothesis app_heap : Rev1.heap app = h.
Hypothesis app_images : Rev1.images app = 0.

Lemma deref_nonneg i node :
  deref h i = Some node -> (0 <= delay (data node))%Q.
Proof. intros H. apply h_nonneg. eapply nth_error_In. exact H. Qed.

Lemma deref_at i t node :
  deref h i = Some node ->
  deref (Rev1.heap (at_frame app i t)) (Rev1.current_frame (at_frame app i t))
  = Some node.
Proof. cbn. now rewrite app_heap. Qed.

(** With the timer below the sum of the next [m] delays, none of them
    across the end of the list, the loop stops after fewer than [m]
    advances. *)
Lemma advance_before_wrap m :
  forall i t,
    i + m <= length h ->
    i < length h ->
    (t < total_delay (firstn m (skipn i h)))%Q ->
    exists n app',
      Rev1.advance (at_frame app i t) n app' /\ n <= pred m.
Proof.
  induction m as [|m IH]; intros i t Hi Hr Hlt;
    destruct (deref_in_range h i Hr) as [node Hn];
    pose proof (deref_nonneg i node Hn) as Hd0;
    pose proof (deref_at i t node Hn) as Hn'.
  - cbn [firstn] in Hlt. rewrite total_delay_nil in Hlt.
    exists 0, (at_frame app i t). split; [|lia].
    eapply Rev1.advance_below; [exact Hn'|].
    apply time_geb_false_below. lra.
  - rewrite (skipn_deref h i node Hn) in Hlt. cbn [firstn] in Hlt.
    rewrite total_delay_cons in Hlt.
    destruct (time_geb (Num t) (delay (data node))) eqn:Eg.
    + destruct (time_geb_true _ _ Eg) as (a & Ea & Ha).
      inversion Ea; subst a.
      assert (Hm : 1 <= m).
      { destruct m; [|lia]. cbn [firstn] in Hlt.
        rewrite total_delay_nil in Hlt. lra. }
      assert (Hs : next node = S i).
      { rewrite (cyclic_next h i node h_cyclic Hn). unfold successor.
        destruct (Nat.eqb_spec (S i) (length h)); [lia|reflexivity]. }
      destruct (IH (S i) (t - delay (data node))%Q) as (n & app' & Ha' & Hb);
        [lia|lia|lra|].
      exists (S n), app'. split; [|lia].
      eapply Rev1.advance_step; [exact Hn'|exact Eg| |].
      * cbn. rewrite Hs, app_images. intros [K _]. discriminate.
      * rewrite Hs. exact Ha'.
    + exists 0, (at_frame app i t). split; [|lia].
      eapply Rev1.advance_below; [exact Hn'|exact Eg].
Qed.

(** With the timer below the sum of the first [i0] delays plus the delays
    from the cursor up to the last node (that one left out), the loop stops
    after as many advances, at most, as there are delays in that sum. *)
Lemma advance_through_wrap i0 m :
  forall j t,
    j + m + 1 = length h ->
    i0 <= length h ->
    (t < total_delay (firstn i0 h) + total_delay (firstn m (skipn j h)))%Q ->
    exists n app',
      Rev1.advance (at_frame app j t) n app' /\ n <= m + i0.
Proof.
  induction m as [|m IH]; intros j t Hj Hi0 Hlt;
    (destruct (deref_in_range h j) as [node Hn]; [lia|]);
    pose proof (deref_nonneg j node Hn) as Hd0;
    pose proof (deref_at j t node Hn) as Hn';
    pose proof (cyclic_next h j node h_cyclic Hn) as Hnx;
    (destruct (time_geb (Num t) (delay (data node))) eqn:Eg;
     [destruct (time_geb_true _ _ Eg) as (a & Ea & Ha); inversion Ea; subst a
     |exists 0, (at_frame app j t); split; [|lia];
      eapply Rev1.advance_below; [exact Hn'|exact Eg]]).
  - (* on the last node *)
    cbn [firstn] in Hlt. rewrite total_delay_nil in Hlt.
    assert (Hs : next node = 0).
    { rewrite Hnx. unfold successor.
      destruct (Nat.eqb_spec (S j) (length h)); [reflexivity|lia]. }
    destruct (Rev1.looping (Rev1.view app)) eqn:El.
    + destruct (advance_before_wrap i0 0 (t - delay (data node))%Q)
        as (n & app' & Ha' & Hb); [lia|lia|cbn [skipn]; lra|].
      assert (Hi1 : 1 <= i0).
      { destruct i0; [|lia]. cbn [firstn] in Hlt.
        rewrite total_delay_nil in Hlt. lra. }
      exists (S n), app'. split; [|lia].
      eapply Rev1.advance_step; [exact Hn'|exact Eg| |].
      * cbn. rewrite El. intros [_ K]. discriminate.
      * rewrite Hs. exact Ha'.
    + exists 0, (at_frame app j t). split; [|lia].
      eapply Rev1.advance_freeze; [exact Hn'|exact Eg| |exact El].
      cbn. now rewrite Hs, app_images.
  - (* before the last node *)
    rewrite (skipn_deref h j node Hn) in Hlt. cbn [firstn] in Hlt.
    rewrite total_delay_cons in Hlt.
    assert (Hs : next node = S j).
    { rewrite Hnx. unfold successor.
      destruct (Nat.eqb_spec (S j) (length h)); [lia|reflexivity]. }
    destruct (IH (S j) (t - delay (data node))%Q) as (n & app' & Ha' & Hb);
      [lia|lia|lra|].
    exists (S n), app'. split; [|lia].
    eapply Rev1.advance_step; [exact Hn'|exact Eg| |].
    + cbn. rewrite Hs, app_images. intros [K _]. discriminate.
    + rewrite Hs. exact Ha'.
Qed.

(** Below the cycle time the loop stops from any node after fewer advances
    than there are frames. *)
Lemma advance_bounded i t :
  i < length h ->
  (t < total_delay (removelast h))%Q ->
  exists n app',
    Rev1.advance (at_frame app i t) n app' /\ n < length h.
Proof.
  intros Hi Hlt.
  destruct (advance_through_wrap i (length h - 1 - i) i t)
    as (n & app' & Ha & Hb); [lia|lia| |].
  - rewrite <- total_delay_app, <- firstn_add.
    replace (i + (length h - 1 - i)) with (pred (length h)) by lia.
    now rewrite <- removelast_firstn_len.
  - exists n, app'. split; [exact Ha|lia].
Qed.

End Termination.

Lemma in_removelast {A} (x : A) l : In x (removelast l) -> In x l.
Proof.
  induction l as [|a l IH]; [auto|].
  destruct l as [|b l]; [intros []|].
  change (removelast (a :: b :: l)) with (a :: removelast (b :: l)).
  intros [->|H]; [now left|right; now apply IH].
Qed.

(** On a well-formed state whose delays are not negative and whose
    [full_time] is the cycle time, a tick returns after fewer advances than
    there are frames; as many units of fuel as frames are enough. *)
Lemma tick_total (app : Rev1.App) :
  Rev1.wf app = true ->
  delays_nonneg (Rev1.heap app) ->
  (Rev1.full_time app == Rev1.cycle_time (Rev1.heap app) (Rev1.images app))%Q ->
  exists n app',
    n < length (Rev1.heap app)
    /\ (Rev1.paused (Rev1.view app) = false -> Rev1.tick_spec app (0 <? n) app')
    /\ forall fuel, length (Rev1.heap app) <= fuel ->
         Rev1.app_timer_increment fuel app = Some (0 <? n, app').
Proof.
  intros Hwf Hnn Hft. destruct (wf_unfold _ Hwf) as (Hcy & Him & Hr).
  pose proof (cyclic_nonempty _ Hcy) as Hlen.
  unfold Rev1.app_timer_increment, Rev1.tick_spec,
    Rev1.viewer_should_timer_increment, Rev1.set_timer.
  destruct (Rev1.paused (Rev1.view app)); cbn [negb].
  { exists 0, app. split; [exact Hlen|]. split; [discriminate|reflexivity]. }
  set (t1 := fmod _ _).
  destruct (deref_in_range _ _ Hr) as [node Hn].
  assert (Hstop :
            exists n app',
              Rev1.advance
                (Rev1.mkApp (Rev1.heap app) (Rev1.view app) (Rev1.images app)
                   (Rev1.current_frame app) t1 (Rev1.full_time app)
                   (Rev1.state_text_visible app)) n app'
              /\ n < length (Rev1.heap app)).
  { destruct t1 as [r|] eqn:Et.
    - (* a number: it is below the cycle time *)
      apply (advance_bounded (Rev1.heap app) Hcy Hnn app eq_refl Him
               (Rev1.current_frame app) r Hr).
      rewrite Him, cycle_time_removelast in Hft by exact Hcy.
      fold (total_delay (removelast (Rev1.heap app))) in Hft.
      assert (0 <= total_delay (removelast (Rev1.heap app)))%Q.
      { apply total_delay_nonneg. intros x Hx.
        apply Hnn. now apply in_removelast. }
      subst t1. unfold fmod in Et.
      destruct (time_add (Rev1.timer app)
                  (Rev1.playback_speed (Rev1.view app))) as [a|];
        [|discriminate].
      destruct (Qeq_bool (Rev1.full_time app) 0) eqn:E0; [discriminate|].
      assert (Hpos : (0 < Rev1.full_time app)%Q).
      { destruct (Qlt_le_dec 0 (Rev1.full_time app)) as [|Hle]; [assumption|].
        assert (Hz : (Rev1.full_time app == 0)%Q) by lra.
        apply Qeq_bool_iff in Hz. congruence. }
      destruct (fmod_lt a _ Hpos) as (r' & Hf & Hr').
      unfold fmod in Hf. rewrite E0 in Hf.
      assert (r' = r) by congruence. subst r'. lra.
    - (* NaN compares false with every delay *)
      eexists 0, _. split; [|exact Hlen].
      eapply Rev1.advance_below; [exact Hn|reflexivity]. }
  destruct Hstop as (n & app' & Ha & Hb).
  exists n, app'. split; [exact Hb|]. split.
  - intros _. exists n. split; [exact Ha|reflexivity].
  - intros fuel Hfuel.
    now rewrite (timer_loop_complete _ _ _ Ha false fuel) by lia.
Qed.

(** C9.  The frame-advance loop of [app_timer_increment] terminates on
    every engine state whose [full_time] (the cycle time computed at
    construction) is positive and whose frame delays are all non-negative.
    After [fmod] the timer is below [full_time]; every advance subtracts the
    delay of the frame it leaves, and the delays met on the way back to the
    starting frame add up to at least [full_time]: so the loop makes fewer
    advances than there are frames, and the call returns, with the same
    result for every amount of fuel from the number of frames on. *)
Theorem tick_terminates :
  forall app : Rev1.App,
    Rev1.wf app = true ->
    (Rev1.full_time app == Rev1.cycle_time (Rev1.heap app) (Rev1.images app))%Q ->
    (0 < Rev1.full_time app)%Q ->
    delays_nonneg (Rev1.heap app) ->
    exists n app',
      n < length (Rev1.heap app)
      /\ forall fuel, length (Rev1.heap app) <= fuel ->
           Rev1.app_timer_increment fuel app = Some (0 <? n, app').
Proof.
  intros app Hwf Hft _ Hnn.
  destruct (tick_total app Hwf Hnn Hft) as (n & app' & Hn & _ & Hr).
  exists n, app'. split; [exact Hn|exact Hr].
Qed.

Lemma demo_delays_nonneg : delays_nonneg (graphiclist_new demo_gif).
Proof.
  intros node [<-|[<-|[<-|[]]]]; cbn; lra.
Qed.

Lemma tick_terminates_witness :
  exists n app',
    n < 3
    /\ forall fuel, 3 <= fuel ->
         Rev1.app_timer_increment fuel (demo_app 0 (Num 9) false true)
         = Some (0 <? n, app').
Proof.
  apply (tick_terminates (demo_app 0 (Num 9) false true)).
  - reflexivity.
  - vm_compute. reflexivity.
  - vm_compute. reflexivity.
  - exact demo_delays_nonneg.
Defined.

(** ** The tick against its description *)

(** C1.  On an engine state that is not paused, over a list of at least one
    frame, [app_timer_increment] does what the description of tick() says:
    it first replaces the timer by [fmod (timer + playback_speed) full_time],
    then, while the timer is at least the delay of the current frame, either
    stops (current frame final and looping off) or subtracts that delay and
    moves to the successor; the flag it returns is true exactly when at
    least one advance was made.  The call returns [(b, app')] (for some
    amount of fuel) if and only if the description relates [app] to
    [(b, app')]; and it does return when the delays are non-negative and
    [full_time] is the cycle time. *)
Theorem tick_refines_description :
  forall app : Rev1.App,
    Rev1.wf app = true ->
    Rev1.paused (Rev1.view app) = false ->
    (forall b app',
        (exists fuel, Rev1.app_timer_increment fuel app = Some (b, app'))
        <-> Rev1.tick_spec app b app')
    /\ (delays_nonneg (Rev1.heap app) ->
        (Rev1.full_time app
         == Rev1.cycle_time (Rev1.heap app) (Rev1.images app))%Q ->
        exists b app',
          Rev1.tick_spec app b app'
          /\ forall fuel, length (Rev1.heap app) <= fuel ->
               Rev1.app_timer_increment fuel app = Some (b, app')).
Proof.
  intros app Hwf Hp. split.
  - intros b app'. unfold Rev1.app_timer_increment, Rev1.tick_spec,
      Rev1.viewer_should_timer_increment, Rev1.set_timer.
    rewrite Hp. cbn [negb]. split.
    + intros [fuel H]. apply timer_loop_sound in H.
      destruct H as (n & Ha & Hb). exists n. split; assumption.
    + intros (n & Ha & Hb). exists (S n).
      rewrite (timer_loop_complete _ _ _ Ha false (S n)) by lia.
      now rewrite Hb.
  - intros Hnn Hft.
    destruct (tick_total app Hwf Hnn Hft) as (n & app' & _ & Hs & Hr).
    exists (0 <? n), app'. split; [exact (Hs Hp)|exact Hr].
Qed.

Lemma tick_refines_description_witness :
  (forall b app',
      (exists fuel,
          Rev1.app_timer_increment fuel (demo_app 0 (Num 9) false true)
          = Some (b, app'))
      <-> Rev1.tick_spec (demo_app 0 (Num 9) false true) b app')
  /\ (delays_nonneg (Rev1.heap (demo_app 0 (Num 9) false true)) ->
      (Rev1.full_time (demo_app 0%nat (Num 9) false true)
       == Rev1.cycle_time (Rev1.heap (demo_app 0%nat (Num 9) false true))
            (Rev1.images (demo_app 0%nat (Num 9) false true)))%Q ->
      exists b app',
        Rev1.tick_spec (demo_app 0 (Num 9) false true) b app'
        /\ forall fuel,
            length (Rev1.heap (demo_app 0 (Num 9) false true)) <= fuel ->
            Rev1.app_timer_increment fuel (demo_app 0 (Num 9) false true)
            = Some (b, app')).
Proof.
  apply (tick_refines_description (demo_app 0 (Num 9) false true));
    reflexivity.
Defined.

(** ** LZW decoding *)

Section DecodeFacts.

Variable mcs : nat.
Variable expected : nat.

Lemma read_code_length w bits c bits' :
  LZW.read_code w bits = Some (c, bits') ->
  length bits' + w = length bits.
Proof.
  unfold LZW.read_code. destruct (Nat.ltb_spec (length bits) w) as [|Hw];
    [discriminate|].
  intros H. inversion H; subst. rewrite length_skipn. lia.
Qed.

Lemma grow_ge w count : w <= LZW.grow w count.
Proof.
  unfold LZW.grow. destruct ((count =? 2 ^ w) && (w <? 12)); lia.
Qed.

(** A round that goes on consumes at least one bit and keeps the code
    width positive. *)
Lemma step_consumes st st' :
  LZW.step mcs expected st = inl st' ->
  1 <= LZW.code_width st ->
  length (LZW.rest st') < length (LZW.rest st)
  /\ 1 <= LZW.code_width st'.
Proof.
  unfold LZW.step. intros H Hw.
  destruct (expected <=? length (LZW.output st)); [discriminate|].
  destruct (LZW.read_code (LZW.code_width st) (LZW.rest st))
    as [[c bits]|] eqn:Er; [|discriminate].
  apply read_code_length in Er.
  destruct (c =? LZW.clear_code mcs).
  { inversion H; subst. cbn. lia. }
  destruct (c =? LZW.end_code mcs).
  { destruct (length (LZW.output st) <? expected); discriminate. }
  destruct (LZW.entry_of mcs st c) as [e|]; [|discriminate].
  inversion H; subst. cbn [LZW.rest LZW.code_width].
  pose proof (grow_ge (LZW.code_width st)
                (LZW.clear_code mcs + 2 + length (LZW.extend mcs st e))).
  lia.
Qed.

Lemma run_total fuel :
  forall st,
    1 <= LZW.code_width st ->
    length (LZW.rest st) < fuel ->
    exists r, LZW.run mcs expected fuel st = Some r.
Proof.
  induction fuel as [|fuel IH]; intros st Hw Hf; [lia|].
  cbn [LZW.run]. destruct (LZW.step mcs expected st) as [st'|r] eqn:Es.
  - destruct (step_consumes _ _ Es Hw) as [Hl Hw'].
    apply IH; [exact Hw'|lia].
  - eauto.
Qed.

Lemma run_after k :
  forall st st' fuel,
    LZW.after mcs expected k st = Some st' ->
    LZW.run mcs expected (k + fuel) st = LZW.run mcs expected fuel st'.
Proof.
  induction k as [|k IH]; intros st st' fuel H.
  - inversion H; subst. reflexivity.
  - cbn [LZW.after] in H. cbn [Nat.add LZW.run].
    destruct (LZW.step mcs expected st) as [st1|]; [|discriminate].
    now apply IH.
Qed.

Lemma after_consumes k :
  forall st st',
    LZW.after mcs expected k st = Some st' ->
    1 <= LZW.code_width st ->
    k + length (LZW.rest st') <= length (LZW.rest st)
    /\ 1 <= LZW.code_width st'.
Proof.
  induction k as [|k IH]; intros st st' H Hw.
  - inversion H; subst. split; [lia|exact Hw].
  - cbn [LZW.after] in H.
    destruct (LZW.step mcs expected st) as [st1|] eqn:Es; [|discriminate].
    destruct (step_consumes _ _ Es Hw) as [Hl Hw1].
    destruct (IH _ _ H Hw1) as [Hk Hw']. split; [lia|exact Hw'].
Qed.

Lemma after_snoc k :
  forall st st' st'',
    LZW.after mcs expected k st = Some st' ->
    LZW.step mcs expected st' = inl st'' ->
    LZW.after mcs expected (S k) st = Some st''.
Proof.
  induction k as [|k IH]; intros st st' st'' H Hs.
  - inversion H; subst. cbn [LZW.after]. now rewrite Hs.
  - cbn [LZW.after] in H. change (LZW.after mcs expected (S (S k)) st)
      with (match LZW.step mcs expected st with
            | inl st1 => LZW.after mcs expected (S k) st1
            | inr _ => None
            end).
    destruct (LZW.step mcs expected st) as [st1|]; [|discriminate].
    eapply IH; eassumption.
Qed.

(** The result of [decode] is the result of the round at which the decoder
    stops. *)
Lemma decode_stops_with bytes k st r :
  LZW.after mcs expected k (LZW.initial mcs (LZW.bits_of_bytes bytes))
  = Some st ->
  LZW.step mcs expected st = inr r ->
  LZW.decode mcs bytes expected = r.
Proof.
  intros Ha Hs. unfold LZW.decode.
  destruct (after_consumes _ _ _ Ha) as [Hk _].
  { cbn. lia. }
  cbn [LZW.initial LZW.rest] in Hk.
  replace (S (length (LZW.bits_of_bytes bytes)))
    with (k + S (length (LZW.bits_of_bytes bytes) - k)) by lia.
  rewrite (run_after _ _ _ _ Ha). cbn [LZW.run]. now rewrite Hs.
Qed.

Lemma run_length fuel :
  forall st out,
    LZW.run mcs expected fuel st = Some (inl out) ->
    length out = expected.
Proof.
  induction fuel as [|fuel IH]; intros st out H; [discriminate|].
  cbn [LZW.run] in H.
  destruct (LZW.step mcs expected st) as [st'|r] eqn:Es;
    [eapply IH; eassumption|].
  inversion H; subst. clear H. unfold LZW.step in Es.
  destruct (Nat.leb_spec expected (length (LZW.output st))) as [Hle|Hlt].
  { inversion Es; subst. rewrite length_firstn. lia. }
  destruct (LZW.read_code (LZW.code_width st) (LZW.rest st))
    as [[c bits]|]; [|discriminate].
  destruct (c =? LZW.clear_code mcs); [discriminate|].
  destruct (c =? LZW.end_code mcs).
  { destruct (Nat.ltb_spec (length (LZW.output st)) expected);
      [discriminate|lia]. }
  destruct (LZW.entry_of mcs st c); discriminate.
Qed.

End DecodeFacts.

(** [decode] never runs out of fuel: its result is the result of [run]. *)
Lemma decode_runs mcs bytes expected :
  LZW.run mcs expected (S (length (LZW.bits_of_bytes bytes)))
    (LZW.initial mcs (LZW.bits_of_bytes bytes))
  = Some (LZW.decode mcs bytes expected).
Proof.
  unfold LZW.decode.
  destruct (run_total mcs expected (S (length (LZW.bits_of_bytes bytes)))
              (LZW.initial mcs (LZW.bits_of_bytes bytes))) as [r Hr].
  - cbn. lia.
  - cbn [LZW.initial LZW.rest]. lia.
  - now rewrite Hr.
Qed.

(** C6.  For the decoder modelled on the design document: whenever
    [decode] succeeds its output has exactly [expected_pixel_count] bytes;
    whenever the decoder, at any round, reads the end code while fewer than
    [expected_pixel_count] pixels have been produced, [decode] returns
    CorruptImageData; and when a data code brings the output to or beyond
    the expected count, [decode] succeeds with the output cut off at exactly
    that count. *)
Theorem decode_length_and_corruption :
  forall (min_code_size : nat) (compressed_bytes : list byte)
         (expected_pixel_count : nat),
    (forall out,
        LZW.decode min_code_size compressed_bytes expected_pixel_count
        = inl out ->
        length out = expected_pixel_count)
    /\ (forall k st bits,
           LZW.after min_code_size expected_pixel_count k
             (LZW.initial min_code_size (LZW.bits_of_bytes compressed_bytes))
           = Some st ->
           length (LZW.output st) < expected_pixel_count ->
           LZW.read_code (LZW.code_width st) (LZW.rest st)
           = Some (LZW.end_code min_code_size, bits) ->
           LZW.decode min_code_size compressed_bytes expected_pixel_count
           = inr LZW.CorruptImageData)
    /\ (forall k st c bits e,
           LZW.after min_code_size expected_pixel_count k
             (LZW.initial min_code_size (LZW.bits_of_bytes compressed_bytes))
           = Some st ->
           length (LZW.output st) < expected_pixel_count ->
           LZW.read_code (LZW.code_width st) (LZW.rest st) = Some (c, bits) ->
           c <> LZW.clear_code min_code_size ->
           c <> LZW.end_code min_code_size ->
           LZW.entry_of min_code_size st c = Some e ->
           expected_pixel_count <= length (LZW.output st ++ e) ->
           LZW.decode min_code_size compressed_bytes expected_pixel_count
           = inl (firstn expected_pixel_count (LZW.output st ++ e))).
Proof.
  intros mcs bytes expected. split; [|split].
  - intros out H. unfold LZW.decode in H.
    destruct (LZW.run mcs expected (S (length (LZW.bits_of_bytes bytes)))
                (LZW.initial mcs (LZW.bits_of_bytes bytes)))
      as [r|] eqn:Er; [|discriminate].
    subst r. eapply run_length; eassumption.
  - intros k st bits Ha Hlt Hr.
    apply (decode_stops_with mcs expected bytes k st _ Ha).
    unfold LZW.step. rewrite Hr.
    destruct (Nat.leb_spec expected (length (LZW.output st))); [lia|].
    destruct (Nat.eqb_spec (LZW.end_code mcs) (LZW.clear_code mcs)) as [E|_].
    { unfold LZW.end_code in E. lia. }
    rewrite Nat.eqb_refl.
    destruct (Nat.ltb_spec (length (LZW.output st)) expected); [|lia].
    reflexivity.
  - intros k st c bits e Ha Hlt Hr Hc He Hentry Hlen.
    assert (Hs : LZW.step mcs expected st
                 = inl (LZW.mkDecoder (LZW.extend mcs st e)
                          (LZW.grow (LZW.code_width st)
                             (LZW.clear_code mcs + 2
                              + length (LZW.extend mcs st e)))
                          (Some e) (LZW.output st ++ e) bits)).
    { unfold LZW.step. rewrite Hr, Hentry.
      destruct (Nat.leb_spec expected (length (LZW.output st))); [lia|].
      destruct (Nat.eqb_spec c (LZW.clear_code mcs)); [contradiction|].
      destruct (Nat.eqb_spec c (LZW.end_code mcs)); [contradiction|].
      reflexivity. }
    apply (decode_stops_with mcs expected bytes (S k) _ _
             (after_snoc mcs expected k _ _ _ Ha Hs)).
    unfold LZW.step. cbn [LZW.output].
    destruct (Nat.leb_spec expected (length (LZW.output st ++ e))); [|lia].
    reflexivity.
Qed.

Lemma decode_length_and_corruption_witness :
  length [x01; x01] = 2
  /\ LZW.decode 2 [x4c; x0a] 3 = inr LZW.CorruptImageData
  /\ LZW.decode 2 [x8c; x5d] 4 = inl (firstn 4 ([x01; x01; x01] ++ [x01; x01])).
Proof.
  split; [|split].
  - apply (proj1 (decode_length_and_corruption 2 [x4c; x0a] 2)).
    reflexivity.
  - apply (proj1 (proj2 (decode_length_and_corruption 2 [x4c; x0a] 3))
             3
             (LZW.mkDecoder [[x01; x01]] 3 (Some [x01]) [x01; x01]
                [true; false; true; false; false; false; false])
             [false; false; false; false]);
      [reflexivity|cbn; lia|reflexivity].
  - apply (proj2 (proj2 (decode_length_and_corruption 2 [x8c; x5d] 4))
             3
             (LZW.mkDecoder [[x01; x01]] 3 (Some [x01; x01]) [x01; x01; x01]
                [false; true; true; true; false; true; false])
             6 [true; false; true; false] [x01; x01]);
      try reflexivity; cbn; lia.
Defined.


(** * Further properties of the playback engine *)

(** ** Frames the timer cannot outlast *)

Lemma tick_stalls_once fuel app node :
  deref (Rev1.heap app) (Rev1.current_frame app) = Some node ->
  (0 <= Rev1.full_time app)%Q ->
  (Rev1.full_time app <= delay (data node))%Q ->
  exists t,
    Rev1.app_timer_increment (S fuel) app = Some (false, Rev1.set_timer app t).
Proof.
  intros Hd H0 Hle. unfold Rev1.app_timer_increment.
  destruct (negb (Rev1.viewer_should_timer_increment (Rev1.view app))).
  - exists (Rev1.timer app). destruct app; reflexivity.
  - set (t := fmod _ _). exists t.
    assert (Hd' : deref (Rev1.heap (Rev1.set_timer app t))
                    (Rev1.current_frame (Rev1.set_timer app t)) = Some node)
      by exact Hd.
    rewrite (timer_loop_unfold _ _ _ _ Hd').
    cbn [Rev1.set_timer Rev1.timer].
    destruct t as [r|] eqn:Et; [|reflexivity].
    rewrite time_geb_false_below; [reflexivity|].
    subst t. unfold fmod in Et.
    destruct (time_add (Rev1.timer app) (Rev1.playback_speed (Rev1.view app)))
      as [a|]; [|discriminate].
    destruct (Qeq_bool (Rev1.full_time app) 0) eqn:E0; [discriminate|].
    assert (Hpos : (0 < Rev1.full_time app)%Q).
    { destruct (Qlt_le_dec 0 (Rev1.full_time app)) as [|Hle0]; [assumption|].
      assert (Hz : (Rev1.full_time app == 0)%Q) by lra.
      apply Qeq_bool_iff in Hz. congruence. }
    destruct (fmod_lt a _ Hpos) as (r' & Hf & Hr').
    unfold fmod in Hf. rewrite E0 in Hf.
    assert (r' = r) by congruence. subst r'. lra.
Qed.

(** X1.  A frame whose delay is at least [full_time] is never left by the
    timer: [fmod] keeps the timer below [full_time] (or makes it NaN when
    [full_time] is 0), so the test [timer >= delay] fails at every tick.
    Whatever the timer, the flags and the number of ticks, every tick
    returns and the cursor stays where it is.  As [full_time] leaves out the
    delay of the last frame, this is the case of the last frame of a list of
    equal delays, of both frames of a two-frame list of equal delays, and of
    a single frame. *)
Theorem tick_stalls_on_long_frame :
  forall (n fuel : nat) (app : Rev1.App) (node : GraphicListNode),
    deref (Rev1.heap app) (Rev1.current_frame app) = Some node ->
    (0 <= Rev1.full_time app)%Q ->
    (Rev1.full_time app <= delay (data node))%Q ->
    exists app',
      Rev1.ticks n (S fuel) app = Some app'
      /\ Rev1.current_frame app' = Rev1.current_frame app.
Proof.
  induction n as [|n IH]; intros fuel app node Hd H0 Hle.
  - exists app. split; reflexivity.
  - destruct (tick_stalls_once fuel app node Hd H0 Hle) as [t Ht].
    cbn [Rev1.ticks]. rewrite Ht. cbn [snd].
    destruct (IH fuel (Rev1.set_timer app t) node) as (app' & Hr & Hc);
      try assumption.
    exists app'. split; [exact Hr|exact Hc].
Qed.

Lemma tick_stalls_on_long_frame_witness :
  Rev1.app_new 2 demo_two = Some (demo_two_app 0 (Num 0) true)
  /\ exists app',
      Rev1.ticks 1000 (S 5) (demo_two_app 0 (Num 0) true) = Some app'
      /\ Rev1.current_frame app' = 0.
Proof.
  split; [reflexivity|].
  apply (tick_stalls_on_long_frame 1000 5 (demo_two_app 0 (Num 0) true)
           (mkNode (mkGraphic 0 4 4 10%Q) 1)).
  - reflexivity.
  - cbn. lra.
  - cbn. lra.
Defined.

(** ** What a tick keeps and establishes *)

Lemma advance_wf app n app' :
  Rev1.advance app n app' -> Rev1.wf app = true -> Rev1.wf app' = true.
Proof.
  induction 1 as [| |app image n app' Hd Eg Hne Hadv IH]; intros Hwf;
    try assumption.
  apply IH. destruct (wf_unfold _ Hwf) as (Hc & Hi & Hr).
  apply wf_fold; cbn; try assumption.
  rewrite (cyclic_next _ _ _ Hc Hd). now apply successor_in_range.
Qed.

Lemma advance_same_frame app n app' :
  Rev1.advance app n app' -> same_frame app app'.
Proof.
  induction 1 as [| |app image n app' Hd Eg Hne Hadv IH];
    try apply same_frame_refl.
  destruct IH as (H1 & H2 & H3 & H4 & H5). repeat split; assumption.
Qed.

(** Where the loop stops: on a frame that is not due, or frozen on the
    final frame. *)
Lemma advance_stops app n app' :
  Rev1.advance app n app' ->
  exists image,
    deref (Rev1.heap app') (Rev1.current_frame app') = Some image
    /\ (time_geb (Rev1.timer app') (delay (data image)) = false
        \/ (next image = Rev1.images app'
            /\ Rev1.looping (Rev1.view app') = false)).
Proof.
  induction 1 as [app image Hd Eg|app image Hd Eg En El
                 |app image n app' Hd Eg Hne Hadv IH].
  - exists image. auto.
  - exists image. auto.
  - exact IH.
Qed.

(** X2.  A tick keeps the engine well formed: when the nodes form a cycle
    headed by [images] and the cursor is on one of them, the same holds
    after the call, so the cursor never leaves the list. *)
Theorem tick_preserves_wf :
  forall (fuel : nat) (app app' : Rev1.App) (advanced : bool),
    Rev1.wf app = true ->
    Rev1.app_timer_increment fuel app = Some (advanced, app') ->
    Rev1.wf app' = true.
Proof.
  intros fuel app app' advanced Hwf H.
  unfold Rev1.app_timer_increment in H.
  destruct (negb (Rev1.viewer_should_timer_increment (Rev1.view app))).
  - now inversion H; subst.
  - apply timer_loop_sound in H. destruct H as (n & Ha & _).
    apply (advance_wf _ _ _ Ha).
    destruct (wf_unfold _ Hwf) as (Hc & Hi & Hr). now apply wf_fold.
Qed.

Lemma tick_preserves_wf_witness :
  Rev1.wf (demo_app 1 (Num 0) false true) = true.
Proof.
  apply (tick_preserves_wf 5 (demo_app 0 (Num 9) false true)
           (demo_app 1 (Num 0) false true) true); reflexivity.
Defined.

(** X3.  After a tick of an engine that is not paused, the current frame is
    not due: the timer is below its delay (or NaN).  The only exception is
    the final frame with looping off, where the loop stops although the
    frame is due. *)
Theorem tick_leaves_current_frame_not_due :
  forall (fuel : nat) (app app' : Rev1.App) (advanced : bool),
    Rev1.paused (Rev1.view app) = false ->
    Rev1.app_timer_increment fuel app = Some (advanced, app') ->
    exists image,
      deref (Rev1.heap app') (Rev1.current_frame app') = Some image
      /\ (time_geb (Rev1.timer app') (delay (data image)) = false
          \/ (next image = Rev1.images app'
              /\ Rev1.looping (Rev1.view app) = false)).
Proof.
  intros fuel app app' advanced Hp H.
  unfold Rev1.app_timer_increment, Rev1.viewer_should_timer_increment in H.
  rewrite Hp in H. cbn [negb] in H.
  apply timer_loop_sound in H. destruct H as (n & Ha & _).
  destruct (advance_stops _ _ _ Ha) as (image & Hd & Hs).
  destruct (advance_same_frame _ _ _ Ha) as (_ & Hv & _).
  exists image. split; [exact Hd|].
  destruct Hs as [Hs|[Hn Hl]]; [now left|right].
  split; [exact Hn|]. rewrite Hv in Hl. exact Hl.
Qed.

Lemma tick_leaves_current_frame_not_due_witness :
  exists image,
    deref (Rev1.heap (demo_app 1 (Num 5) false true)) 1 = Some image
    /\ (time_geb (Num 5) (delay (data image)) = false
        \/ (next image = 0 /\ true = false)).
Proof.
  apply (tick_leaves_current_frame_not_due 5
           (demo_app 0 (Num 14) false true)
           (demo_app 1 (Num 5) false true) true); reflexivity.
Defined.

(** ** Looping matters only on the final frame *)

Lemma timer_loop_looping fuel :
  forall app adv b app' image,
    Rev1.looping (Rev1.view app) = false ->
    Rev1.timer_loop fuel app adv = Some (b, app') ->
    deref (Rev1.heap app') (Rev1.current_frame app') = Some image ->
    time_geb (Rev1.timer app') (delay (data image)) = false ->
    Rev1.timer_loop fuel (Rev1Ops.app_set_looping app true) adv
    = Some (b, Rev1Ops.app_set_looping app' true).
Proof.
  induction fuel as [|fuel IH]; intros app adv b app' image Hl H Hd' Hg';
    [discriminate|].
  destruct (deref (Rev1.heap app) (Rev1.current_frame app)) as [im|] eqn:Hd;
    [|cbn [Rev1.timer_loop] in H; rewrite Hd in H; discriminate].
  assert (Hd2 : deref (Rev1.heap (Rev1Ops.app_set_looping app true))
                  (Rev1.current_frame (Rev1Ops.app_set_looping app true))
                = Some im) by exact Hd.
  rewrite (timer_loop_unfold _ _ _ _ Hd) in H.
  rewrite (timer_loop_unfold _ _ _ _ Hd2).
  cbn [Rev1Ops.app_set_looping Rev1.timer Rev1.images Rev1.view Rev1.looping].
  destruct (time_geb (Rev1.timer app) (delay (data im))) eqn:Eg.
  - rewrite Hl in H. cbn [negb] in H. rewrite andb_true_r in H.
    rewrite andb_false_r.
    destruct (next im =? Rev1.images app).
    + (* frozen: the frame the loop stopped on is due *)
      inversion H; subst. congruence.
    + exact (IH (advanced_to app im) true b app' image Hl H Hd' Hg').
  - inversion H; subst. reflexivity.
Qed.

(** X4.  The looping flag is read only to freeze on the final frame.  When
    a tick with looping off ends on a frame that is not due (so it did not
    freeze), the same tick with looping on returns the same flag and the
    same state, looping flag apart. *)
Theorem looping_matters_only_when_frozen :
  forall (fuel : nat) (app app' : Rev1.App) (advanced : bool)
         (image : GraphicListNode),
    Rev1.looping (Rev1.view app) = false ->
    Rev1.app_timer_increment fuel app = Some (advanced, app') ->
    deref (Rev1.heap app') (Rev1.current_frame app') = Some image ->
    time_geb (Rev1.timer app') (delay (data image)) = false ->
    Rev1.app_timer_increment fuel (Rev1Ops.app_set_looping app true)
    = Some (advanced, Rev1Ops.app_set_looping app' true).
Proof.
  intros fuel app app' advanced image Hl H Hd Hg.
  unfold Rev1.app_timer_increment, Rev1.viewer_should_timer_increment in *.
  cbn [Rev1Ops.app_set_looping Rev1.view Rev1.timer Rev1.full_time
       Rev1.paused Rev1.playback_speed].
  destruct (Rev1.paused (Rev1.view app)); cbn [negb] in *.
  - now inversion H; subst.
  - exact (timer_loop_looping fuel (Rev1.set_timer app _) false advanced app'
             image Hl H Hd Hg).
Qed.

Lemma looping_matters_only_when_frozen_witness :
  Rev1.app_timer_increment 5
    (Rev1Ops.app_set_looping (demo_app 1 (Num 14) false false) true)
  = Some (true, Rev1Ops.app_set_looping (demo_app 2 (Num 5) false false) true).
Proof.
  apply (looping_matters_only_when_frozen 5
           (demo_app 1 (Num 14) false false)
           (demo_app 2 (Num 5) false false) true
           (mkNode (mkGraphic 2 4 4 10%Q) 0)); reflexivity.
Defined.

(** ** Stepping backwards *)

Lemma successor_predecessor n c : c < n -> successor n (predecessor n c) = c.
Proof.
  unfold successor, predecessor. intros Hc.
  destruct (Nat.eqb_spec c 0);
    match goal with
    | |- context [?a =? ?b] => destruct (Nat.eqb_spec a b)
    end; lia.
Qed.

Lemma predecessor_in_range n c : c < n -> predecessor n c < n.
Proof.
  unfold predecessor. intros Hc. destruct (Nat.eqb_spec c 0); lia.
Qed.

(** [app_previous_frame] on a well-formed state. *)
Lemma previous_frame_step (app : Rev1.App) :
  Rev1.wf app = true ->
  exists app',
    (forall fuel, length (Rev1.heap app) <= fuel ->
       Rev1.app_previous_frame fuel app = Some app')
    /\ Rev1.current_frame app'
       = predecessor (length (Rev1.heap app)) (Rev1.current_frame app)
    /\ Rev1.timer app' = Num 0
    /\ same_frame app app'
    /\ Rev1.wf app' = true.
Proof.
  intros Hwf. destruct (wf_unfold _ Hwf) as (Hc & Hi & Hr).
  pose proof (predecessor_in_range _ _ Hr) as Hp.
  destruct (previous_loop_finds _ app
              (predecessor (length (Rev1.heap app)) (Rev1.current_frame app))
              Hwf Hp eq_refl) as (app2 & Hl & Hcur & Hf).
  rewrite successor_predecessor in Hl by exact Hr.
  exists (Rev1.set_timer app2 (Num 0)).
  destruct Hf as (H1 & H2 & H3 & H4 & H5).
  split; [|split; [exact Hcur|split; [reflexivity|split]]].
  - intros fuel Hfuel. unfold Rev1.app_previous_frame. rewrite Hl; [reflexivity|].
    unfold dist, predecessor.
    destruct (Nat.eqb_spec (Rev1.current_frame app) 0);
      match goal with
      | |- context [?a <=? ?b] => destruct (Nat.leb_spec a b)
      end; lia.
  - repeat split; assumption.
  - apply wf_fold; cbn.
    + now rewrite H1.
    + now rewrite H3.
    + rewrite Hcur, H1. exact Hp.
Qed.

(** X5.  On a cyclic list of N frames [app_previous_frame] returns (N
    iterations of its loop are enough), leaves the cursor on the node whose
    [next] is the node it started from, sets the timer to 0 and changes
    nothing else. *)
Theorem previous_frame_moves_to_predecessor :
  forall app : Rev1.App,
    Rev1.wf app = true ->
    exists app' node,
      (forall fuel, length (Rev1.heap app) <= fuel ->
         Rev1.app_previous_frame fuel app = Some app')
      /\ deref (Rev1.heap app) (Rev1.current_frame app') = Some node
      /\ next node = Rev1.current_frame app
      /\ app' = Rev1.mkApp (Rev1.heap app) (Rev1.view app) (Rev1.images app)
                  (Rev1.current_frame app') (Num 0) (Rev1.full_time app)
                  (Rev1.state_text_visible app).
Proof.
  intros app Hwf. destruct (wf_unfold _ Hwf) as (Hc & Hi & Hr).
  destruct (previous_frame_step app Hwf)
    as (app' & Hp & Hcur & Ht & (H1 & H2 & H3 & H4 & H5) & Hwf').
  destruct (deref_in_range (Rev1.heap app) (Rev1.current_frame app'))
    as [node Hn].
  { rewrite Hcur. now apply predecessor_in_range. }
  exists app', node. split; [exact Hp|]. split; [exact Hn|]. split.
  - rewrite (cyclic_next _ _ _ Hc Hn), Hcur.
    now apply successor_predecessor.
  - rewrite <- H1, <- H2, <- H3, <- H4, <- H5, <- Ht. now destruct app'.
Qed.

Lemma previous_frame_moves_to_predecessor_witness :
  exists app' node,
    (forall fuel, 3 <= fuel ->
       Rev1.app_previous_frame fuel (demo_app 0 (Num 7) false true)
       = Some app')
    /\ deref (graphiclist_new demo_gif) (Rev1.current_frame app') = Some node
    /\ next node = 0
    /\ app' = Rev1.mkApp (graphiclist_new demo_gif)
                (Rev1.mkViewer true false true 1%Q) 0
                (Rev1.current_frame app') (Num 0) 20%Q false.
Proof.
  apply (previous_frame_moves_to_predecessor (demo_app 0 (Num 7) false true)).
  reflexivity.
Defined.




(** ** Any sequence of calls *)

Lemma tick_keeps fuel app b app' :
  Rev1.wf app = true ->
  Rev1.app_timer_increment fuel app = Some (b, app') ->
  Rev1.wf app' = true /\ same_frame app app'.
Proof.
  intros Hwf H. unfold Rev1.app_timer_increment in H.
  destruct (negb (Rev1.viewer_should_timer_increment (Rev1.view app))).
  - inversion H; subst. split; [exact Hwf|apply same_frame_refl].
  - apply timer_loop_sound in H. destruct H as (n & Ha & _). split.
    + apply (advance_wf _ _ _ Ha).
      destruct (wf_unfold _ Hwf) as (Hc & Hi & Hr). now apply wf_fold.
    + destruct (advance_same_frame _ _ _ Ha) as (H1 & H2 & H3 & H4 & H5).
      repeat split; assumption.
Qed.

Section Calls.

Variable h : Heap.
Variable ft : Q.
Hypothesis h_nonneg : delays_nonneg h.
Hypothesis ft_cycle : (ft == Rev1.cycle_time h 0%nat)%Q.

Lemma do_call_inv c app :
  engine_inv h ft app ->
  exists app',
    (forall fuel, length h <= fuel ->
       Rev1Ops.do_call fuel c app = Some app')
    /\ engine_inv h ft app'.
Proof.
  intros (Hwf & Hh & Hft). destruct (wf_unfold _ Hwf) as (Hc & Hi & Hr).
  destruct c as [| | |b|b|q]; cbn [Rev1Ops.do_call].
  - destruct (tick_total app Hwf) as (n & app' & _ & _ & Ht).
    { now rewrite Hh. }
    { now rewrite Hh, Hft, Hi. }
    exists app'. rewrite Hh in Ht.
    destruct (tick_keeps _ _ _ _ Hwf (Ht (length h) (le_n _)))
      as (Hwf' & H1 & _ & _ & H4 & _).
    split.
    + intros fuel Hfuel. now rewrite Ht.
    + repeat split; [exact Hwf'|congruence|congruence].
  - destruct (next_frame_step app Hwf) as (app' & Hs & _ & Hf & Hwf').
    destruct Hf as (H1 & _ & _ & H4 & _).
    exists app'. split; [intros; exact Hs|].
    repeat split; [exact Hwf'|congruence|congruence].
  - destruct (previous_frame_step app Hwf)
      as (app' & Hp & _ & _ & (H1 & _ & _ & H4 & _) & Hwf').
    exists app'. rewrite Hh in Hp. split; [exact Hp|].
    repeat split; [exact Hwf'|congruence|congruence].
  - eexists. split; [reflexivity|]. repeat split; assumption.
  - eexists. split; [reflexivity|]. repeat split; assumption.
  - eexists. split; [reflexivity|]. repeat split; assumption.
Qed.

Lemma do_calls_inv cs :
  forall app,
    engine_inv h ft app ->
    exists app',
      (forall fuel, length h <= fuel ->
         Rev1Ops.do_calls fuel cs app = Some app')
      /\ engine_inv h ft app'.
Proof.
  induction cs as [|c cs IH]; intros app Hinv.
  - exists app. split; [reflexivity|exact Hinv].
  - destruct (do_call_inv c app Hinv) as (app1 & H1 & Hinv1).
    destruct (IH app1 Hinv1) as (app' & H' & Hinv').
    exists app'. split; [|exact Hinv'].
    intros fuel Hfuel. cbn [Rev1Ops.do_calls].
    rewrite (H1 fuel Hfuel). now apply H'.
Qed.

End Calls.

Lemma link_delays_nonneg n i gs :
  (forall g, In g gs -> (0 <= delay g)%Q) ->
  delays_nonneg (link n i gs).
Proof.
  intros H node Hin. apply H.
  rewrite <- (link_data n i gs). now apply in_map.
Qed.

(** X7.  Built on a non-empty list of frames with non-negative delays, the
    engine survives any sequence of calls (ticks, next and previous frame,
    pausing, looping and speed changes, with any speed): every call returns,
    none dereferences a node outside the list, and afterwards the list is
    the one that was built, the cursor is on one of its nodes and
    [full_time] is what [app_new] computed.  As many units of fuel as there
    are frames are enough for every loop. *)
Theorem engine_survives_any_calls :
  forall (gif : list Graphic) (cs : list Rev1Ops.call),
    gif <> [] ->
    (forall g, In g gif -> (0 <= delay g)%Q) ->
    exists app0 app',
      (forall fuel, length gif <= fuel ->
         Rev1.app_new fuel gif = Some app0
         /\ Rev1Ops.do_calls fuel cs app0 = Some app')
      /\ Rev1.wf app' = true
      /\ Rev1.heap app' = graphiclist_new gif
      /\ Rev1.full_time app' = Rev1.full_time app0.
Proof.
  intros gif cs Hne Hnn.
  pose proof (graphiclist_new_cyclic gif Hne) as Hc.
  set (h := graphiclist_new gif).
  set (app0 := Rev1.mkApp h (Rev1.mkViewer true false true 1%Q) 0 0 (Num 0)
                 (Rev1.cycle_time h 0) false).
  assert (Hlen : length h = length gif).
  { unfold h, graphiclist_new. apply link_length. }
  destruct (do_calls_inv h (Rev1.cycle_time h 0)) with (cs := cs) (app := app0)
    as (app' & Hrun & Hwf' & Hh' & Hft').
  - apply link_delays_nonneg. exact Hnn.
  - reflexivity.
  - repeat split. apply wf_fold; cbn; [exact Hc|reflexivity|].
    fold h. rewrite Hlen. destruct gif; [contradiction|cbn; lia].
  - exists app0, app'. split; [|repeat split; assumption].
    intros fuel Hfuel. split.
    + unfold Rev1.app_new. fold h.
      rewrite full_time_loop_cycle_time; [reflexivity|exact Hc|lia].
    + apply Hrun. lia.
Qed.

Lemma engine_survives_any_calls_witness :
  exists app0 app',
    (forall fuel, 3 <= fuel ->
       Rev1.app_new fuel demo_gif = Some app0
       /\ Rev1Ops.do_calls fuel
            [Rev1Ops.Tick; Rev1Ops.SetPlaybackSpeed (-7 # 2);
             Rev1Ops.PreviousFrame; Rev1Ops.Tick; Rev1Ops.NextFrame;
             Rev1Ops.SetLooping false; Rev1Ops.Tick]
            app0
          = Some app')
    /\ Rev1.wf app' = true
    /\ Rev1.heap app' = graphiclist_new demo_gif
    /\ Rev1.full_time app' = Rev1.full_time app0.
Proof.
  apply (engine_survives_any_calls demo_gif).
  - discriminate.
  - intros g [<-|[<-|[<-|[]]]]; cbn; lra.
Defined.

(** ** Where the time goes *)

Lemma advance_accounts app n app' :
  Rev1.advance app n app' ->
  forall t,
    Rev1.timer app = Num t ->
    exists t',
      Rev1.timer app' = Num t'
      /\ (t' + Rev1Ops.walked (Rev1.heap app) n (Rev1.current_frame app) == t)%Q
      /\ Rev1.current_frame app'
         = Rev1Ops.walk_to (Rev1.heap app) n (Rev1.current_frame app).
Proof.
  induction 1 as [app image Hd Eg|app image Hd Eg En El
                 |app image n app' Hd Eg Hne Hadv IH]; intros t Ht.
  - exists t. split; [exact Ht|]. split; [cbn; lra|reflexivity].
  - exists t. split; [exact Ht|]. split; [cbn; lra|reflexivity].
  - destruct (IH (t - delay (data image))%Q) as (t' & Ht' & Hsum & Hcur).
    { cbn. now rewrite Ht. }
    cbn [Rev1.heap Rev1.current_frame] in Hsum, Hcur.
    exists t'. split; [exact Ht'|].
    cbn [Rev1Ops.walked Rev1Ops.walk_to]. rewrite Hd.
    split; [lra|exact Hcur].
Qed.

(** X8.  A tick loses no time.  With [t1] the timer right after [fmod], the
    timer the tick leaves plus the delays of the frames it advanced over is
    [t1] again, the cursor is the node reached by that many steps along
    [next], and the returned flag tells whether that number is positive. *)
Theorem tick_accounts_for_time :
  forall (fuel : nat) (app app' : Rev1.App) (advanced : bool) (t1 : Q),
    Rev1.paused (Rev1.view app) = false ->
    fmod (time_add (Rev1.timer app) (Rev1.playback_speed (Rev1.view app)))
         (Rev1.full_time app) = Num t1 ->
    Rev1.app_timer_increment fuel app = Some (advanced, app') ->
    exists n t',
      Rev1.timer app' = Num t'
      /\ (t' + Rev1Ops.walked (Rev1.heap app) n (Rev1.current_frame app)
          == t1)%Q
      /\ Rev1.current_frame app'
         = Rev1Ops.walk_to (Rev1.heap app) n (Rev1.current_frame app)
      /\ advanced = (0 <? n).
Proof.
  intros fuel app app' advanced t1 Hp Hf H.
  unfold Rev1.app_timer_increment, Rev1.viewer_should_timer_increment in H.
  rewrite Hp, Hf in H. cbn [negb] in H.
  apply timer_loop_sound in H. destruct H as (n & Ha & Hb).
  destruct (advance_accounts _ _ _ Ha t1 eq_refl) as (t' & Ht' & Hsum & Hcur).
  exists n, t'. repeat split; assumption.
Qed.

Lemma tick_accounts_for_time_witness :
  exists n t',
    Rev1.timer (demo_app 1 (Num 5) false true) = Num t'
    /\ (t' + Rev1Ops.walked (graphiclist_new demo_gif) n 0%nat == 15)%Q
    /\ 1 = Rev1Ops.walk_to (graphiclist_new demo_gif) n 0
    /\ true = (0 <? n).
Proof.
  apply (tick_accounts_for_time 5 (demo_app 0 (Num 14) false true)
           (demo_app 1 (Num 5) false true) true 15%Q); reflexivity.
Defined.

(** * The earlier revision *)

(** ** One tick *)

Lemma rev0_tick_unfold (app : Rev0.App) image :
  deref (Rev0.heap app) (Rev0.current_frame app) = Some image ->
  Rev0.paused app = false ->
  Rev0.app_timer_increment app
  = if Qle_bool (delay (data image))
         (inject_Z (Rev0.timer app + 1) * Rev0.playback_speed app)
    then
      if negb (Rev0.looping app) && (next image =? Rev0.images app)
      then Some (false, Rev0Ops.at_cursor app (Rev0.current_frame app)
                          (Rev0.timer app + 1))
      else Some (true, Rev0Ops.at_cursor app (next image) 0)
    else Some (false, Rev0Ops.at_cursor app (Rev0.current_frame app)
                        (Rev0.timer app + 1)).
Proof.
  intros Hd Hp.
  unfold Rev0.app_timer_increment, Rev0.app_next_frame, Rev0Ops.at_cursor.
  rewrite Hp, Hd. cbn [Rev0.heap Rev0.current_frame Rev0.timer
                       Rev0.playback_speed Rev0.looping Rev0.images].
  rewrite Hd. reflexivity.
Qed.

(** X10.  In the earlier revision too, with looping off the cursor never
    leaves the final frame: any number of ticks returns with the cursor on
    the same node, paused or not, whatever the timer and the speed. *)
Theorem rev0_non_looping_freezes_on_final_frame :
  forall (n : nat) (app : Rev0.App) (node : GraphicListNode),
    deref (Rev0.heap app) (Rev0.current_frame app) = Some node ->
    next node = Rev0.images app ->
    Rev0.looping app = false ->
    exists app',
      Rev0Ops.ticks n app = Some app'
      /\ Rev0.current_frame app' = Rev0.current_frame app.
Proof.
  induction n as [|n IH]; intros app node Hd Hn Hl.
  - exists app. split; reflexivity.
  - cbn [Rev0Ops.ticks].
    assert (Hstep : exists t,
               Rev0.app_timer_increment app
               = Some (false,
                       Rev0Ops.at_cursor app (Rev0.current_frame app) t)).
    { destruct (Rev0.paused app) eqn:Hp.
      - exists (Rev0.timer app). unfold Rev0.app_timer_increment.
        rewrite Hp. now destruct app.
      - exists (Rev0.timer app + 1)%Z.
        rewrite (rev0_tick_unfold app node Hd Hp), Hl, Hn, Nat.eqb_refl.
        cbn [negb andb]. now destruct (Qle_bool _ _). }
    destruct Hstep as [t Ht]. rewrite Ht. cbn [snd].
    destruct (IH (Rev0Ops.at_cursor app (Rev0.current_frame app) t) node)
      as (app' & Hr & Hc); try assumption.
    exists app'. split; [exact Hr|exact Hc].
Qed.

Lemma rev0_non_looping_freezes_on_final_frame_witness :
  exists app',
    Rev0Ops.ticks 100 (demo_app0 2 0 false false) = Some app'
    /\ Rev0.current_frame app' = 2.
Proof.
  apply (rev0_non_looping_freezes_on_final_frame 100
           (demo_app0 2 0 false false)
           (mkNode (mkGraphic 2 4 4 10%Q) 0)); reflexivity.
Defined.

(** ** How long a frame is shown *)




(** ** Going round the cycle *)

Section Rev0Cycle.

Variable app : Rev0.App.
Hypothesis app_cyclic : cyclic (Rev0.heap app) = true.

Lemma rev0_next_at x t :
  x < length (Rev0.heap app) ->
  Rev0.app_next_frame (Rev0Ops.at_cursor app x t)
  = Some (Rev0Ops.at_cursor app (successor (length (Rev0.heap app)) x) 0).
Proof.
  intros Hx. destruct (deref_in_range _ _ Hx) as [node Hn].
  unfold Rev0.app_next_frame.
  cbn [Rev0Ops.at_cursor Rev0.heap Rev0.current_frame]. rewrite Hn.
  now rewrite (cyclic_next _ _ _ app_cyclic Hn).
Qed.

Lemma rev0_previous_loop_finds d :
  forall x t c,
    x < length (Rev0.heap app) ->
    c < length (Rev0.heap app) ->
    dist (length (Rev0.heap app)) c x = d ->
    exists t',
      forall fuel, d < fuel ->
        Rev0Ops.previous_loop fuel (successor (length (Rev0.heap app)) c)
          (Rev0Ops.at_cursor app x t)
        = Some (Rev0Ops.at_cursor app c t').
Proof.
  induction d as [|d IH]; intros x t c Hx Hc Hd;
    destruct (deref_in_range _ _ Hx) as [node Hn];
    pose proof (cyclic_next _ _ _ app_cyclic Hn) as Hnx.
  - assert (x = c).
    { unfold dist in Hd. destruct (Nat.leb_spec x c); lia. }
    subst c. exists t. intros [|fuel] Hfuel; [lia|].
    cbn [Rev0Ops.previous_loop Rev0Ops.at_cursor Rev0.heap
         Rev0.current_frame].
    now rewrite Hn, Hnx, Nat.eqb_refl.
  - assert (Hne : x <> c).
    { intros E. rewrite E in Hd. unfold dist in Hd.
      rewrite Nat.leb_refl in Hd. lia. }
    destruct (IH (successor (length (Rev0.heap app)) x) 0%Z c)
      as [t' Ht']; [now apply successor_in_range|exact Hc| |].
    { unfold dist, successor in *.
      destruct (Nat.eqb_spec (S x) (length (Rev0.heap app)));
        repeat match goal with
               | H : context [?a <=? ?b] |- _ => destruct (Nat.leb_spec a b)
               | |- context [?a <=? ?b] => destruct (Nat.leb_spec a b)
               end; lia. }
    exists t'. intros [|fuel] Hfuel; [lia|].
    change (Rev0Ops.previous_loop (S fuel)
              (successor (length (Rev0.heap app)) c)
              (Rev0Ops.at_cursor app x t))
      with (node0 <- deref (Rev0.heap app) x ;;
            if negb (next node0 =? successor (length (Rev0.heap app)) c)
            then app' <- Rev0.app_next_frame (Rev0Ops.at_cursor app x t) ;;
                 Rev0Ops.previous_loop fuel
                   (successor (length (Rev0.heap app)) c) app'
            else Some (Rev0Ops.at_cursor app x t)).
    rewrite Hn, Hnx.
    destruct (Nat.eqb_spec (successor (length (Rev0.heap app)) x)
                (successor (length (Rev0.heap app)) c)) as [E|E].
    { apply successor_inj in E; [contradiction|assumption|assumption]. }
    cbn [negb]. rewrite (rev0_next_at x t Hx). apply Ht'. lia.
Qed.

Lemma rev0_previous_at x t :
  x < length (Rev0.heap app) ->
  forall fuel, length (Rev0.heap app) <= fuel ->
    Rev0Ops.app_previous_frame fuel (Rev0Ops.at_cursor app x t)
    = Some (Rev0Ops.at_cursor app
              (predecessor (length (Rev0.heap app)) x) 0).
Proof.
  intros Hx fuel Hfuel.
  pose proof (predecessor_in_range _ _ Hx) as Hp.
  destruct (rev0_previous_loop_finds _ x t
              (predecessor (length (Rev0.heap app)) x) Hx Hp eq_refl)
    as [t' Ht'].
  rewrite successor_predecessor in Ht' by exact Hx.
  unfold Rev0Ops.app_previous_frame.
  change (Rev0.current_frame (Rev0Ops.at_cursor app x t)) with x.
  rewrite Ht'; [reflexivity|].
  unfold dist, predecessor.
  destruct (Nat.eqb_spec x 0);
    match goal with
    | |- context [?a <=? ?b] => destruct (Nat.leb_spec a b)
    end; lia.
Qed.

End Rev0Cycle.

(** X12.  In the earlier revision next and previous undo each other
    exactly: on a cyclic list of N frames, [app_previous_frame] after
    [app_next_frame], and [app_next_frame] after [app_previous_frame], both
    return the state they started from with the timer set to 0
    ([app_previous_frame] needs at most N iterations of its loop). *)
Theorem rev0_next_and_previous_are_inverse :
  forall app : Rev0.App,
    Rev0Ops.wf app = true ->
    (exists app1,
        Rev0.app_next_frame app = Some app1
        /\ forall fuel, length (Rev0.heap app) <= fuel ->
             Rev0Ops.app_previous_frame fuel app1
             = Some (Rev0Ops.at_cursor app (Rev0.current_frame app) 0))
    /\ (exists app1,
           (forall fuel, length (Rev0.heap app) <= fuel ->
              Rev0Ops.app_previous_frame fuel app = Some app1)
           /\ Rev0.app_next_frame app1
              = Some (Rev0Ops.at_cursor app (Rev0.current_frame app) 0)).
Proof.
  intros app Hwf. unfold Rev0Ops.wf in Hwf.
  apply andb_true_iff in Hwf. destruct Hwf as [Hwf Hr].
  apply andb_true_iff in Hwf. destruct Hwf as [Hc Hi].
  apply Nat.ltb_lt in Hr.
  assert (Ha : Rev0Ops.at_cursor app (Rev0.current_frame app) (Rev0.timer app)
               = app) by now destruct app.
  split.
  - exists (Rev0Ops.at_cursor app
              (successor (length (Rev0.heap app)) (Rev0.current_frame app)) 0).
    split.
    + rewrite <- Ha at 1. now apply rev0_next_at.
    + intros fuel Hfuel.
      rewrite rev0_previous_at;
        [|exact Hc|now apply successor_in_range|exact Hfuel].
      f_equal. f_equal. unfold predecessor, successor.
      destruct (Nat.eqb_spec (S (Rev0.current_frame app))
                  (length (Rev0.heap app)));
        match goal with
        | |- context [?a =? ?b] => destruct (Nat.eqb_spec a b)
        end; lia.
  - exists (Rev0Ops.at_cursor app
              (predecessor (length (Rev0.heap app)) (Rev0.current_frame app))
              0).
    split.
    + intros fuel Hfuel. rewrite <- Ha at 1.
      now apply rev0_previous_at.
    + rewrite rev0_next_at; [|exact Hc|now apply predecessor_in_range].
      now rewrite successor_predecessor.
Qed.

Lemma rev0_next_and_previous_are_inverse_witness :
  (exists app1,
      Rev0.app_next_frame (demo_app0 2 7 false true) = Some app1
      /\ forall fuel, 3 <= fuel ->
           Rev0Ops.app_previous_frame fuel app1
           = Some (demo_app0 2 0 false true))
  /\ (exists app1,
         (forall fuel, 3 <= fuel ->
            Rev0Ops.app_previous_frame fuel (demo_app0 2 7 false true)
            = Some app1)
         /\ Rev0.app_next_frame app1 = Some (demo_app0 2 0 false true)).
Proof.
  apply (rev0_next_and_previous_are_inverse (demo_app0 2 7 false true)).
  reflexivity.
Defined.

(** * The screen *)

(** ** The background grid *)

Local Open Scope Z_scope.

Ltac boolprop :=
  repeat match goal with
         | H : _ && _ = true |- _ => apply andb_true_iff in H; destruct H
         | H : (_ <=? _) = true |- _ => apply Z.leb_le in H
         | H : (_ <? _) = true |- _ => apply Z.ltb_lt in H
         | |- _ && _ = true => apply andb_true_iff; split
         | |- (_ <=? _) = true => apply Z.leb_le
         | |- (_ <? _) = true => apply Z.ltb_lt
         end.

Lemma rect_has_iff px py r :
  Screen.rect_has px py r = true
  <-> Screen.x r <= px < Screen.x r + Screen.w r
      /\ Screen.y r <= py < Screen.y r + Screen.h r.
Proof.
  unfold Screen.rect_has. split.
  - intros H. boolprop. lia.
  - intros [[? ?] [? ?]]. boolprop; assumption.
Qed.

Lemma odd_mod2 n : Z.odd n = true <-> n mod 2 = 1.
Proof.
  rewrite Zmod_odd.
  destruct (Z.odd n); split; intros; try reflexivity; discriminate.
Qed.

(** The squares of one row cover the pixels of that row whose distance from
    the first square, counted in squares, is even. *)
Lemma grid_row_paints width px py yy n :
  forall x0,
    px < width ->
    (0 < n)%nat ->
    width - x0 + 16 <= 16 * Z.of_nat n ->
    exists rects,
      (forall fuel, (n <= fuel)%nat ->
         Screen.grid_row fuel width x0 yy = Some rects)
      /\ (Screen.painted_b rects px py = true
          <-> 8 * yy <= py < 8 * yy + 8
              /\ x0 <= px /\ (px - x0) mod 16 < 8).
Proof.
  induction n as [|n IH]; intros x0 Hpx Hn Hfuel; [lia|].
  destruct (Z.ltb_spec x0 width) as [Hlt|Hge].
  - destruct (IH (x0 + 8 * 2) Hpx) as (rects & Hr & Hiff); [lia|lia|].
    eexists. split.
    + intros [|fuel] Hf; [lia|]. cbn [Screen.grid_row].
      unfold Screen.BACKGROUND_GRID_SIZE.
      destruct (Z.ltb_spec x0 width); [|lia].
      rewrite Hr by lia. reflexivity.
    + unfold Screen.painted_b in *. cbn [existsb].
      rewrite orb_true_iff, Hiff, rect_has_iff.
      cbn [Screen.x Screen.y Screen.w Screen.h]. split.
      * intros [H|H]; Z.div_mod_to_equations; lia.
      * intros H.
        destruct (Z.lt_ge_cases px (x0 + 16)); [left|right];
          Z.div_mod_to_equations; lia.
  - exists []. split.
    + intros [|fuel] Hf; [lia|]. cbn [Screen.grid_row].
      destruct (Z.ltb_spec x0 width); [lia|reflexivity].
    + cbn. split; [discriminate|lia].
Qed.

Lemma grid_rows_paints width height px py fuel_x n :
  forall y0,
    0 <= y0 ->
    0 <= height ->
    0 <= px < width ->
    0 <= py ->
    (0 < fuel_x)%nat ->
    width + 16 <= 16 * Z.of_nat fuel_x ->
    (0 < n)%nat ->
    height / 8 + 2 - y0 <= Z.of_nat n ->
    exists rects,
      (forall fuel fx, (n <= fuel)%nat -> (fuel_x <= fx)%nat ->
         Screen.grid_rows fuel fx width height y0 = Some rects)
      /\ (Screen.painted_b rects px py = true
          <-> y0 <= py / 8 <= height / 8 /\ Z.odd (px / 8 + py / 8) = true).
Proof.
  induction n as [|n IH];
    intros y0 Hy0 Hh Hpx Hpy Hfx Hfuelx Hn Hfuel; [lia|].
  destruct (Z.ltb_spec y0 (height / 8 + 1)) as [Hlt|Hge].
  - set (x0 := if y0 mod 2 =? 1 then 0 else 8).
    destruct (grid_row_paints width px py y0 fuel_x x0) as (row & Hrow & Hri);
      [lia|exact Hfx|subst x0; destruct (y0 mod 2 =? 1); lia|].
    destruct (IH (y0 + 1)) as (rows & Hrows & Hrsi); try lia.
    eexists. split.
    + intros [|fuel] fx Hf Hfx'; [lia|]. cbn [Screen.grid_rows].
      unfold Screen.BACKGROUND_GRID_SIZE.
      rewrite Z.quot_div_nonneg by lia. rewrite Z.rem_mod_nonneg by lia.
      destruct (Z.ltb_spec y0 (height / 8 + 1)); [|lia].
      fold x0. rewrite (Hrow fx Hfx'), (Hrows fuel fx) by lia. reflexivity.
    + unfold Screen.painted_b in *. rewrite existsb_app, orb_true_iff.
      rewrite Hri, Hrsi, odd_mod2. subst x0.
      destruct (Z.eqb_spec (y0 mod 2) 1) as [E|E]; split.
      * intros [H|H]; Z.div_mod_to_equations; lia.
      * intros H. destruct (Z.eq_dec (py / 8) y0); [left|right];
          Z.div_mod_to_equations; lia.
      * intros [H|H]; Z.div_mod_to_equations; lia.
      * intros H. destruct (Z.eq_dec (py / 8) y0); [left|right];
          Z.div_mod_to_equations; lia.
  - exists []. split.
    + intros [|fuel] fx Hf Hfx'; [lia|]. cbn [Screen.grid_rows].
      unfold Screen.BACKGROUND_GRID_SIZE.
      rewrite Z.quot_div_nonneg by lia.
      destruct (Z.ltb_spec y0 (height / 8 + 1)); [lia|reflexivity].
    + cbn. split; [discriminate|lia].
Qed.

(** X13.  [_generate_bg_grid] draws a checkerboard of 8-pixel squares: for a
    window of [width] by [height] pixels the two loops terminate, and a
    pixel of the window lies in one of the squares filled with colour B
    exactly when the sum of its square's column and row numbers is odd.
    The bound on [width] keeps [x += 16] within the range of [int]. *)
Theorem bg_grid_is_a_checkerboard :
  forall width height px py : Z,
    0 <= px < width ->
    0 <= py < height ->
    width <= 2147483631 ->
    exists rects,
      (forall fuel,
          (Z.to_nat width + Z.to_nat height + 2 <= fuel)%nat ->
          Screen._generate_bg_grid fuel width height = Some rects)
      /\ Screen.painted_b rects px py = Z.odd (px / 8 + py / 8).
Proof.
  intros width height px py Hpx Hpy _.
  destruct (grid_rows_paints width height px py
              (Z.to_nat width + 1) (Z.to_nat height + 2) 0)
    as (rects & Hrun & Hiff); try lia.
  { assert (height / 8 <= height) by (Z.div_mod_to_equations; lia). lia. }
  exists rects. split.
  - intros fuel Hfuel. unfold Screen._generate_bg_grid. apply Hrun; lia.
  - apply eq_true_iff_eq. rewrite Hiff. split.
    + intros [_ H]. exact H.
    + intros H. split; [|exact H]. Z.div_mod_to_equations. lia.
Qed.

Lemma bg_grid_is_a_checkerboard_witness :
  exists rects,
    (forall fuel,
        (Z.to_nat 20 + Z.to_nat 10 + 2 <= fuel)%nat ->
        Screen._generate_bg_grid fuel 20 10 = Some rects)
    /\ Screen.painted_b rects 17 9 = Z.odd (17 / 8 + 9 / 8).
Proof.
  apply (bg_grid_is_a_checkerboard 20 10 17 9); lia.
Defined.

(** ** The place of the frame in the window *)






Local Close Scope Z_scope.

(** * Playing once through *)

Lemma advance_never_wraps app n app' :
  Rev1.advance app n app' ->
  Rev1.wf app = true ->
  Rev1.looping (Rev1.view app) = false ->
  Rev1.current_frame app <= Rev1.current_frame app'.
Proof.
  induction 1 as [| |app image n app' Hd Eg Hne Hadv IH]; intros Hwf Hl;
    try apply le_n.
  destruct (wf_unfold _ Hwf) as (Hc & Hi & Hr).
  pose proof (cyclic_next _ _ _ Hc Hd) as Hnx.
  assert (Hs : next image = S (Rev1.current_frame app)).
  { rewrite Hnx. unfold successor.
    destruct (Nat.eqb_spec (S (Rev1.current_frame app))
                (length (Rev1.heap app))) as [E|E]; [|reflexivity].
    exfalso. apply Hne. split; [|exact Hl].
    rewrite Hnx, Hi. unfold successor. now rewrite E, Nat.eqb_refl. }
  cbn [Rev1.current_frame Rev1.view] in IH.
  rewrite Hs in IH. apply Nat.le_trans with (S (Rev1.current_frame app));
    [lia|].
  apply IH; [|exact Hl].
  apply wf_fold; cbn; try assumption.
  rewrite <- Hs, Hnx. now apply successor_in_range.
Qed.

(** X15.  With looping off playback never goes back to the start: over any
    number of ticks the cursor only moves towards the end of the list (its
    position never decreases), because the only step from the last node to
    the first is the one the looping test forbids. *)
Theorem non_looping_never_wraps :
  forall (n fuel : nat) (app app' : Rev1.App),
    Rev1.wf app = true ->
    Rev1.looping (Rev1.view app) = false ->
    Rev1.ticks n fuel app = Some app' ->
    Rev1.current_frame app <= Rev1.current_frame app'.
Proof.
  induction n as [|n IH]; intros fuel app app' Hwf Hl H.
  - inversion H; subst. apply le_n.
  - cbn [Rev1.ticks] in H.
    destruct (Rev1.app_timer_increment fuel app) as [[b app1]|] eqn:Ht;
      [|discriminate].
    cbn [snd] in H.
    destruct (tick_keeps _ _ _ _ Hwf Ht) as (Hwf1 & _ & Hv & _).
    assert (Hstep : Rev1.current_frame app <= Rev1.current_frame app1).
    { unfold Rev1.app_timer_increment in Ht.
      destruct (negb (Rev1.viewer_should_timer_increment (Rev1.view app))).
      - inversion Ht; subst. apply le_n.
      - apply timer_loop_sound in Ht. destruct Ht as (k & Ha & _).
        apply (advance_never_wraps _ _ _ Ha); [|exact Hl].
        destruct (wf_unfold _ Hwf) as (Hc & Hi & Hr). now apply wf_fold. }
    apply Nat.le_trans with (Rev1.current_frame app1); [exact Hstep|].
    apply (IH fuel app1 app' Hwf1); [|exact H].
    now rewrite Hv.
Qed.

Lemma non_looping_never_wraps_witness :
  Rev1.current_frame (demo_app 1 (Num 14) false false)
  <= Rev1.current_frame (demo_app 2 (Num 5) false false).
Proof.
  apply (non_looping_never_wraps 1 5 (demo_app 1 (Num 14) false false)
           (demo_app 2 (Num 5) false false)); reflexivity.
Defined.
